(** * GoogleDrive driver (src/module/driver/googleDrive.js)

    A shallow embedding of the [GoogleDrive] class: the instance fields,
    the constructor, [authorizeWithCode], [refreshToken], [getFileList],
    [downloadFile] and [checkAuthorizationStatus].

    The driver talks to three outside parties: the googleapis SDK (token
    exchange, token refresh, [files.list], [files.get]), the p-retry
    package and a logger.  The SDK calls are an oracle ([remote]) whose
    answers may depend on everything that happened before; every call
    issued is recorded in a trace, so that "how many network calls" is a
    statement about the trace.  Asynchronous methods run to completion
    one at a time; a promise is modelled by its [outcome]. *)

From Stdlib Require Import ZArith List String Bool Lia.
Import ListNotations.

Local Open Scope string_scope.
Local Open Scope list_scope.

(** ** JavaScript values *)

(** A method that ends in a bare [return;] yields [undefined]. *)
Inductive jsval (A : Type) : Type :=
| undefined
| defined (a : A).
Arguments undefined {A}.
Arguments defined {A} a.

(** Truthiness of a value that is a string, [undefined] or [null]
    ([None] stands for the two absent values, the empty string is falsy). *)
Definition truthy (s : option string) : bool :=
  match s with
  | Some s => negb (String.eqb s "")
  | None => false
  end.

(** [x || d] and [x ? x : d] for such a value and a string [d]. *)
Definition or_default (x : option string) (d : string) : string :=
  match x with
  | Some s => if String.eqb s "" then d else s
  | None => d
  end.

(** [n < x] where [x] is a number or [undefined]: comparing with
    [undefined] is always false. *)
Definition js_lt (n : Z) (x : option Z) : bool :=
  match x with
  | Some e => (n <? e)%Z
  | None => false
  end.

(** ** Data of the SDK *)

(** Token object handled by the OAuth2 client. *)
Record Credentials := {
  access_token : option string;
  refresh_token : option string;
  expiry_date : option Z
}.

(** [google.auth.OAuth2]: a fresh client holds the empty credentials
    object; [setCredentials] stores its argument as it is. *)
Record OAuth2 := {
  _clientId : string;
  _clientSecret : string;
  redirectUri : string;
  credentials : option Credentials
}.

Definition empty_credentials : Credentials :=
  {| access_token := None; refresh_token := None; expiry_date := None |}.

Definition new_OAuth2 (client_id client_secret redirect_uri : string) : OAuth2 :=
  {| _clientId := client_id; _clientSecret := client_secret;
     redirectUri := redirect_uri; credentials := Some empty_credentials |}.

Definition setCredentials (c : OAuth2) (token : option Credentials) : OAuth2 :=
  {| _clientId := _clientId c; _clientSecret := _clientSecret c;
     redirectUri := redirectUri c; credentials := token |}.

(** [google.drive({version, auth})]; [auth] is the instance's own OAuth2
    client object when there is one ([true]) and [undefined] otherwise. *)
Record drive_client := {
  version : string;
  auth : bool
}.

(** ** Configuration of the driver *)

Record oauth_config := {
  client_id : string;
  client_secret : string;
  redirect_uri : string;
  token : option Credentials;
  code : option string
}.

Record drive_config := {
  driveId : string
}.

Record driver_data := {
  oAuth : option oauth_config;
  drive : option drive_config
}.

(** The instance fields of [class GoogleDrive]. *)
Record driver := {
  oAuth2Client : option OAuth2;
  driveClient : option drive_client;
  _data : driver_data
}.

(** ** Requests and responses *)

Record file := {
  id : string;
  name : string;
  modifiedTime : string;
  parents : list string;
  size : string
}.

(** The [params] object of [getFileList]; [pageToken] is only set when
    the loop holds a truthy token. *)
Record params := {
  p_driveId : string;
  p_corpora : string;
  p_includeItemsFromAllDrives : bool;
  p_supportsTeamDrives : bool;
  p_pageSize : Z;
  p_orderBy : string;
  p_q : string;
  p_fields : string;
  p_pageToken : option string
}.

(** [res.data] of a [files.list] answer. *)
Record list_response := {
  nextPageToken : option string;
  files : list file
}.

(** The request object of [downloadFile]. *)
Record get_params := {
  g_corpora : string;
  g_includeItemsFromAllDrives : bool;
  g_supportsTeamDrives : bool;
  g_driveId : string;
  g_alt : string;
  g_fileId : string;
  g_responseType : string
}.

Definition Buffer := list Byte.byte.

(** [Buffer.from(arrayBuffer, 'binary')]: the same bytes. *)
Definition Buffer_from (data : list Byte.byte) : Buffer := data.

(** ** Errors and promises *)

(** A failure reported by the SDK: an [Error] object with its message
    and, when the server answered, the HTTP status of the answer. *)
Record remote_error : Type := GaxiosError {
  message : string;
  status : option Z
}.

Inductive error : Type :=
| TypeError                      (* property read on undefined *)
| RemoteError (e : remote_error) (* rejection of an SDK call *)
| Reason (msg : string)          (* reject('...') with a plain string *)
| Null.                          (* reject(null) *)

Inductive outcome (A : Type) : Type :=
| Resolved (a : A)
| Rejected (e : error).
Arguments Resolved {A} a.
Arguments Rejected {A} e.

(** ** Logger *)

Inductive log_event : Type :=
| info_RetrievingAccessToken
| error_RetrievingAccessToken (e : remote_error)
| info_GotAccessToken
| debug_token (t : Credentials)
| debug_TokenExpiryDate (d : option Z)
| info_RefreshingAccessToken
| error_RefreshingAccessToken (e : remote_error)
| info_GettingFullFileList (q : string)
| debug_GettingPage (counter : nat)
| error_AttemptFailed (attemptNumber retriesLeft : nat)
| info_GotFiles (n : nat)
| info_DownloadingFile (fileId : string)
| error_HavntAuthorize.

(** ** The world outside the instance *)

Record world := {
  now : Z;              (* (new Date()).getTime() *)
  list_trace : list (params * (remote_error + list_response));
                        (* files.list calls issued, with their answers *)
  get_trace : list (get_params * (remote_error + list Byte.byte));
                        (* files.get calls issued, with their answers *)
  getToken_trace : list (option string * (remote_error + Credentials));
                        (* getToken calls issued, with their answers *)
  refresh_trace : list (OAuth2 * (remote_error + Credentials));
                        (* refreshAccessToken calls issued, with their answers *)
  log : list log_event
}.

(** The answers of the SDK; each may depend on the world at the time of
    the call, so on all earlier calls. *)
Record remote := {
  files_list : world -> params -> remote_error + list_response;
  files_get : world -> get_params -> remote_error + list Byte.byte;
  getToken : world -> option string -> remote_error + Credentials;
  refreshAccessToken : world -> OAuth2 -> remote_error + Credentials
}.

(** The state a method runs in: the instance and the world. *)
Record state := {
  this : driver;
  env : world
}.

(** ** State monad *)

Definition M (A : Type) : Type := state -> A * state.

Definition ret {A} (a : A) : M A := fun s => (a, s).

Definition bind {A B} (c : M A) (k : A -> M B) : M B :=
  fun s => let (a, s') := c s in k a s'.

Notation "x <- c ;; k" := (bind c (fun x => k))
  (at level 61, c at next level, right associativity).
Notation "c ;;; k" := (bind c (fun _ => k))
  (at level 61, right associativity).

Definition get_this : M driver := fun s => (this s, s).

Definition set_oAuth2Client (c : OAuth2) : M unit :=
  fun s => (tt, {| this := {| oAuth2Client := Some c;
                               driveClient := driveClient (this s);
                               _data := _data (this s) |};
                   env := env s |}).

Definition get_now : M Z := fun s => (now (env s), s).

Definition with_env (f : world -> world) : M unit :=
  fun s => (tt, {| this := this s; env := f (env s) |}).

Definition logger (ev : log_event) : M unit :=
  with_env (fun w =>
    {| now := now w; list_trace := list_trace w; get_trace := get_trace w;
       getToken_trace := getToken_trace w; refresh_trace := refresh_trace w;
       log := log w ++ [ev] |}).

Definition of_remote {A} (r : remote_error + A) : outcome A :=
  match r with
  | inl e => Rejected (RemoteError e)
  | inr a => Resolved a
  end.

Section Driver.

Variable rem : remote.

(** One [this.driveClient.files.list(params)] round trip. *)
Definition driveClient_files_list (p : params) : M (outcome list_response) :=
  fun s =>
    let w := env s in
    let a := files_list rem w p in
    (of_remote a,
     {| this := this s;
        env := {| now := now w; list_trace := list_trace w ++ [(p, a)];
                  get_trace := get_trace w;
                  getToken_trace := getToken_trace w;
                  refresh_trace := refresh_trace w; log := log w |} |}).

(** One [this.driveClient.files.get(request, options)] round trip. *)
Definition driveClient_files_get (p : get_params) : M (outcome (list Byte.byte)) :=
  fun s =>
    let w := env s in
    let a := files_get rem w p in
    (of_remote a,
     {| this := this s;
        env := {| now := now w; list_trace := list_trace w;
                  get_trace := get_trace w ++ [(p, a)];
                  getToken_trace := getToken_trace w;
                  refresh_trace := refresh_trace w; log := log w |} |}).

(** One [oAuth2Client.getToken(code, callback)] round trip. *)
Definition oAuth2Client_getToken (c : option string) : M (remote_error + Credentials) :=
  fun s =>
    let w := env s in
    let a := getToken rem w c in
    (a,
     {| this := this s;
        env := {| now := now w; list_trace := list_trace w;
                  get_trace := get_trace w;
                  getToken_trace := getToken_trace w ++ [(c, a)];
                  refresh_trace := refresh_trace w; log := log w |} |}).

(** One [oAuth2Client.refreshAccessToken(callback)] round trip. *)
Definition oAuth2Client_refreshAccessToken (c : OAuth2) : M (remote_error + Credentials) :=
  fun s =>
    let w := env s in
    let a := refreshAccessToken rem w c in
    (a,
     {| this := this s;
        env := {| now := now w; list_trace := list_trace w;
                  get_trace := get_trace w;
                  getToken_trace := getToken_trace w;
                  refresh_trace := refresh_trace w ++ [(c, a)]; log := log w |} |}).

(** ** retry and p-retry

    Both packages are dependencies, not code of this repository; they
    are embedded from their sources (p-retry 3.x and 4.x on retry's
    [RetryOperation]). *)

(** [RetryOperation.prototype.mainError]: [null] when no error was
    recorded; otherwise the recorded errors are scanned in order with a
    count per message, and an error becomes the main error whenever the
    count of its message reaches or exceeds the best count so far.  The
    result is an error whose message occurred most often, the later one
    on ties.  [counts] is the object keyed by message (messages that
    name a property of [Object.prototype] are left aside). *)
Fixpoint mainError_from (errors : list remote_error) (counts : string -> nat)
    (mainError : option remote_error) (mainErrorCount : nat)
  : option remote_error :=
  match errors with
  | [] => mainError
  | error :: errors' =>
      let count := counts (message error) + 1 in
      let counts' := fun m =>
                       if String.eqb m (message error) then count
                       else counts m in
      if Nat.leb mainErrorCount count
      then mainError_from errors' counts' (Some error) count
      else mainError_from errors' counts' mainError mainErrorCount
  end.

Definition mainError (errors : list remote_error) : option remote_error :=
  mainError_from errors (fun _ => 0) None 0.

(** [reject(operation.mainError())]. *)
Definition reject_mainError {A} (errors : list remote_error) : outcome A :=
  match mainError errors with
  | Some e => Rejected (RemoteError e)
  | None => Rejected Null
  end.

(** [pRetry(input, {onFailedAttempt, retries})].  [retries] is the
    number of retries after the first attempt, so [input] runs at most
    [retries + 1] times; the first fulfilled attempt fulfils the call;
    after a rejected attempt the error is given to [onFailedAttempt]
    with [attemptNumber] (from 1) and [retriesLeft] and is recorded by
    [operation.retry] ([errors] holds the errors recorded so far); when
    no retry is left the call rejects with [operation.mainError()].  A
    [TypeError] (other than a network one) is not retried, and a
    rejection with something that is not an [Error] becomes a
    [TypeError].  The delay between attempts is not modelled, nor are
    the two counts p-retry writes on the error object. *)
Fixpoint pRetry_attempt {A} (input : M (outcome A))
    (onFailedAttempt : nat -> nat -> M unit)
    (errors : list remote_error)
    (attemptNumber retriesLeft : nat) : M (outcome A) :=
  r <- input ;;
  match r with
  | Resolved a => ret (Resolved a)
  | Rejected TypeError => ret (Rejected TypeError)
  | Rejected (Reason _) => ret (Rejected TypeError)
  | Rejected Null => ret (Rejected TypeError)
  | Rejected (RemoteError e) =>
      onFailedAttempt attemptNumber retriesLeft ;;;
      match retriesLeft with
      | O => ret (reject_mainError (errors ++ [e]))
      | S n =>
          pRetry_attempt input onFailedAttempt (errors ++ [e])
            (S attemptNumber) n
      end
  end.

Definition pRetry {A} (input : M (outcome A))
    (onFailedAttempt : nat -> nat -> M unit) (retries : nat) : M (outcome A) :=
  pRetry_attempt input onFailedAttempt [] 1 retries.

(** The [onFailedAttempt] handler both retried calls install. *)
Definition onFailedAttempt (attemptNumber retriesLeft : nat) : M unit :=
  logger (error_AttemptFailed attemptNumber retriesLeft).

(** ** The class *)

(** [constructor(id, data = {})]; binding the module-level logger to
    [id] writes nothing to the log. *)
Definition constructor (id : Z) (data : option driver_data) : driver :=
  let data := match data with
              | Some d => d
              | None => {| oAuth := None; drive := None |}
              end in
  let client :=
    match oAuth data with
    | Some o =>
        Some (setCredentials
                (new_OAuth2 (client_id o) (client_secret o) (redirect_uri o))
                (token o))
    | None => None
    end in
  let dc :=
    match drive data with
    | Some _ =>
        Some {| version := "v3";
                auth := match client with Some _ => true | None => false end |}
    | None => None
    end in
  {| oAuth2Client := client; driveClient := dc; _data := data |}.

(** [checkAuthorizationStatus()]. *)
Definition checkAuthorizationStatus : M bool :=
  d <- get_this ;;
  match oAuth2Client d, driveClient d with
  | Some _, Some _ => ret true
  | _, _ => logger error_HavntAuthorize ;;; ret false
  end.

(** [authorizeWithCode(data)]. *)
Definition authorizeWithCode (data : driver_data) : M (outcome oauth_config) :=
  d <- get_this ;;
  let continue (o : oauth_config) (c : OAuth2) : M (outcome oauth_config) :=
    r <- oAuth2Client_getToken (code o) ;;
    match r with
    | inl e =>
        logger (error_RetrievingAccessToken e) ;;;
        ret (Rejected (Reason "Error retrieving access token"))
    | inr tok =>
        logger info_GotAccessToken ;;;
        logger (debug_token tok) ;;;
        set_oAuth2Client (setCredentials c (Some tok)) ;;;
        ret (Resolved {| client_id := client_id o;
                         client_secret := client_secret o;
                         redirect_uri := redirect_uri o;
                         token := Some tok;
                         code := None |})
    end in
  match oAuth2Client d with
  | None =>
      match oAuth data with
      | None => ret (Rejected TypeError)
      | Some o =>
          let c := new_OAuth2 (client_id o) (client_secret o) (redirect_uri o) in
          set_oAuth2Client c ;;;
          logger info_RetrievingAccessToken ;;;
          continue o c
      end
  | Some c =>
      logger info_RetrievingAccessToken ;;;
      match oAuth data with
      | None => ret (Rejected TypeError)
      | Some o => continue o c
      end
  end.

(** [refreshToken(data)]; what the SDK does to its own client object
    during [refreshAccessToken] is outside the method and not modelled. *)
Definition refreshToken (data : option driver_data)
  : M (outcome (jsval Credentials)) :=
  d <- get_this ;;
  let data := match data with Some x => x | None => _data d end in
  let continue (c : OAuth2) : M (outcome (jsval Credentials)) :=
    match credentials c with
    | None => ret (Rejected TypeError)
    | Some cr =>
        let expiry := expiry_date cr in
        logger (debug_TokenExpiryDate expiry) ;;;
        t <- get_now ;;
        if js_lt (t + 600000) expiry then ret (Resolved undefined)
        else
          logger info_RefreshingAccessToken ;;;
          r <- oAuth2Client_refreshAccessToken c ;;
          match r with
          | inl e =>
              logger (error_RefreshingAccessToken e) ;;;
              ret (Rejected (Reason "Error refreshing access token"))
          | inr tok =>
              logger info_GotAccessToken ;;;
              logger (debug_token tok) ;;;
              ret (Resolved (defined tok))
          end
    end in
  match oAuth2Client d with
  | None =>
      match oAuth data with
      | None => ret (Rejected TypeError)
      | Some o =>
          let c := setCredentials
                     (new_OAuth2 (client_id o) (client_secret o) (redirect_uri o))
                     (token o) in
          set_oAuth2Client c ;;;
          continue c
      end
  | Some c => continue c
  end.

(** The [params] object built at each turn of the loop of [getFileList]
    ([fields] and [orderBy] as received by the method). *)
Definition list_params (drv : drive_config) (q fields : string)
    (orderBy pageToken : option string) : params :=
  {| p_driveId := driveId drv;
     p_corpora := "drive";
     p_includeItemsFromAllDrives := true;
     p_supportsTeamDrives := true;
     p_pageSize := 1000;
     p_orderBy := or_default orderBy "modifiedTime desc";
     p_q := q;
     p_fields := "nextPageToken, files(" ++ fields ++ ")";
     p_pageToken := if truthy pageToken then pageToken else None |}.

(** The [do ... while (pageToken)] loop of [getFileList]; [None] when
    [fuel] turns of the loop were not enough. *)
Fixpoint getFileList_loop (fuel : nat) (q fields : string) (full : bool)
    (orderBy : option string) (data : list file) (pageToken : option string)
    (counter : nat) : M (option (outcome (jsval (list file)))) :=
  match fuel with
  | O => ret None
  | S fuel' =>
      logger (debug_GettingPage counter) ;;;
      d <- get_this ;;
      match drive (_data d) with
      | None => ret (Some (Rejected TypeError))
      | Some drv =>
          let params := list_params drv q fields orderBy pageToken in
          res <- pRetry (driveClient_files_list params) onFailedAttempt 3 ;;
          match res with
          | Rejected e => ret (Some (Rejected e))
          | Resolved res =>
              let pageToken :=
                if truthy (nextPageToken res) && full
                then nextPageToken res else None in
              let data := data ++ files res in
              if truthy pageToken
              then getFileList_loop fuel' q fields full orderBy data pageToken
                     (S counter)
              else
                logger (info_GotFiles (List.length data)) ;;;
                ret (Some (Resolved (defined data)))
          end
      end
  end.

(** [getFileList(q, fields, full, orderBy)]; [fuel] bounds the turns of
    its loop, and the result is [None] when the bound is reached. *)
Definition getFileList (q : string) (fields : option string)
    (full : option bool) (orderBy : option string) (fuel : nat)
  : M (option (outcome (jsval (list file)))) :=
  let fields := or_default fields "id, name, modifiedTime, parents, size" in
  let full := match full with Some b => b | None => false end in
  ok <- checkAuthorizationStatus ;;
  if negb ok then ret (Some (Resolved undefined))
  else
    logger (info_GettingFullFileList q) ;;;
    getFileList_loop fuel q fields full orderBy [] None 1.

(** The request built inside the retried function of [downloadFile]. *)
Definition download_params (drv : drive_config) (fileId : string) : get_params :=
  {| g_corpora := "drive";
     g_includeItemsFromAllDrives := true;
     g_supportsTeamDrives := true;
     g_driveId := driveId drv;
     g_alt := "media";
     g_fileId := fileId;
     g_responseType := "arraybuffer" |}.

(** [downloadFile(fileId)]. *)
Definition downloadFile (fileId : string) : M (outcome (jsval Buffer)) :=
  ok <- checkAuthorizationStatus ;;
  if negb ok then ret (Resolved undefined)
  else
    logger (info_DownloadingFile fileId) ;;;
    res <- pRetry
             (d <- get_this ;;
              match drive (_data d) with
              | None => ret (Rejected TypeError)
              | Some drv => driveClient_files_get (download_params drv fileId)
              end)
             onFailedAttempt 3 ;;
    match res with
    | Rejected e => ret (Rejected e)
    | Resolved data => ret (Resolved (defined (Buffer_from data)))
    end.

End Driver.

(** * Vocabulary of the statements *)

Definition is_attempt_failed (ev : log_event) : bool :=
  match ev with
  | error_AttemptFailed _ _ => true
  | _ => false
  end.



(** The pages received among the [files.list] calls of a trace. *)
Fixpoint pages_of (tr : list (params * (remote_error + list_response)))
  : list list_response :=
  match tr with
  | [] => []
  | (_, inr P) :: tr' => P :: pages_of tr'
  | (_, inl _) :: tr' => pages_of tr'
  end.

(** [files.list] calls of one request [p] that failed with [errs]. *)
Definition failed_lists (p : params) (errs : list remote_error)
  : list (params * (remote_error + list_response)) :=
  map (fun e => (p, inl e)) errs.

Definition failed_gets (p : get_params) (errs : list remote_error)
  : list (get_params * (remote_error + list Byte.byte)) :=
  map (fun e => (p, inl e)) errs.

(** Both clients are present. *)
Definition authorized (d : driver) : bool :=
  match oAuth2Client d, driveClient d with
  | Some _, Some _ => true
  | _, _ => false
  end.

(** The drive client exists exactly when the stored configuration has a
    [drive] entry; the constructor establishes this
    ([constructor_well_formed]) and no method changes either side
    ([methods_keep_drive]). *)
Definition well_formed (d : driver) : Prop :=
  driveClient d <> None <-> drive (_data d) <> None.

(** What a listing leaves untouched. *)
Definition same_but_list (s s' : state) : Prop :=
  this s' = this s /\ now (env s') = now (env s) /\
  get_trace (env s') = get_trace (env s) /\
  getToken_trace (env s') = getToken_trace (env s) /\
  refresh_trace (env s') = refresh_trace (env s).

(** What a download leaves untouched. *)
Definition same_but_get (s s' : state) : Prop :=
  this s' = this s /\ now (env s') = now (env s) /\
  list_trace (env s') = list_trace (env s) /\
  getToken_trace (env s') = getToken_trace (env s) /\
  refresh_trace (env s') = refresh_trace (env s).

(** No SDK call was issued between [s] and [s']. *)
Definition no_network_call (s s' : state) : Prop :=
  list_trace (env s') = list_trace (env s) /\
  get_trace (env s') = get_trace (env s) /\
  getToken_trace (env s') = getToken_trace (env s) /\
  refresh_trace (env s') = refresh_trace (env s).

Ltac same_frame :=
  unfold same_but_list, same_but_get, no_network_call; cbn;
  intuition congruence.

(** A request the loop can build for the given arguments. *)
Definition issued_for (q fields : string) (orderBy : option string)
    (c : params * (remote_error + list_response)) : Prop :=
  exists drv tk, fst c = list_params drv q fields orderBy tk.

(** One page fetch as the SDK answers it: the errors of the failed
    calls, then the page. *)
Definition round : Type := list remote_error * list_response.

Definition answers_of (rounds : list round)
  : list (remote_error + list_response) :=
  flat_map (fun r => map inl (fst r) ++ [inr (snd r)]) rounds.

(** The [files.list] calls numbered [n0], [n0 + 1], ... (counting all
    such calls ever issued) are answered by [answers], in that order. *)
Definition serves (rem : remote) (n0 : nat)
    (answers : list (remote_error + list_response)) : Prop :=
  forall w p i a,
    nth_error answers i = Some a ->
    List.length (list_trace w) = n0 + i ->
    files_list rem w p = a.

(** A round p-retry gets through with [retries: 3]. *)
Definition retriable (r : round) : Prop := List.length (fst r) <= 3.

Definition has_next (r : round) : Prop := truthy (nextPageToken (snd r)) = true.

Definition files_of (rounds : list round) : list file :=
  List.concat (map (fun r => files (snd r)) rounds).

(** A page fetch answered at the first call. *)
Definition no_failure (P : list_response) : round := ([], P).

(** Every [files.list] and every [files.get] call fails. *)
Definition always_fails (rem : remote) : Prop :=
  (forall w p, exists e, files_list rem w p = inl e) /\
  (forall w p, exists e, files_get rem w p = inl e).

(** The OAuth2 client a [refreshToken(data)] call works with: the one of
    the instance or, when the instance has none, one built from the
    [oAuth] entry of [data] (of the stored configuration when [data] is
    omitted) and given its token. *)
Definition refresh_client (s : state) (data : option driver_data)
    (c : OAuth2) : Prop :=
  oAuth2Client (this s) = Some c \/
  (oAuth2Client (this s) = None /\
   exists o,
     oAuth (match data with Some x => x | None => _data (this s) end) = Some o /\
     c = setCredentials
           (new_OAuth2 (client_id o) (client_secret o) (redirect_uri o))
           (token o)).

(** What a token call leaves untouched. *)
Definition no_file_call (s s' : state) : Prop :=
  list_trace (env s') = list_trace (env s) /\
  get_trace (env s') = get_trace (env s).

(** The [files.get] calls numbered [n0], [n0 + 1], ... are answered by
    [answers], in that order. *)
Definition serves_get (rem : remote) (n0 : nat)
    (answers : list (remote_error + list Byte.byte)) : Prop :=
  forall w p i a,
    nth_error answers i = Some a ->
    List.length (get_trace w) = n0 + i ->
    files_get rem w p = a.

(** The failure events of [k] failed attempts in a row, the first being
    attempt [a] with [r] retries left. *)
Fixpoint attempt_events (a r k : nat) : list log_event :=
  match k with
  | O => []
  | S k' => error_AttemptFailed a r :: attempt_events (S a) (Nat.pred r) k'
  end.




(** The [files.list] calls of a full listing that goes through [rounds],
    the first page being asked with the token [tok]: each round repeats
    one request, and the next round asks with the token of the page
    just received. *)
Fixpoint calls_of (drv : drive_config) (q fields : string)
    (orderBy tok : option string) (rounds : list round)
  : list (params * (remote_error + list_response)) :=
  match rounds with
  | [] => []
  | r :: rounds' =>
      let p := list_params drv q fields orderBy tok in
      failed_lists p (fst r) ++ [(p, inr (snd r))]
      ++ calls_of drv q fields orderBy (nextPageToken (snd r)) rounds'
  end.

(** The SDK never runs out of pages. *)
Definition endless (rem : remote) : Prop :=
  forall w p, exists P,
    files_list rem w p = inr P /\ truthy (nextPageToken P) = true.

(** ** Example instances *)

Module Examples.

Definition stored_token : Credentials :=
  {| access_token := Some "ya29.a0";
     refresh_token := Some "1//0g";
     expiry_date := Some 1600003600000%Z |}.

Definition fresh_token : Credentials :=
  {| access_token := Some "ya29.b1";
     refresh_token := Some "1//0g";
     expiry_date := Some 1600007200000%Z |}.

Definition oauth0 : oauth_config :=
  {| client_id := "client.apps.googleusercontent.com";
     client_secret := "secret";
     redirect_uri := "urn:ietf:wg:oauth:2.0:oob";
     token := Some stored_token;
     code := Some "4/0AX4" |}.

Definition data0 : driver_data :=
  {| oAuth := Some oauth0; drive := Some {| driveId := "0AJ" |} |}.

Definition world0 : world :=
  {| now := 1600000000000%Z; list_trace := []; get_trace := [];
     getToken_trace := []; refresh_trace := []; log := [] |}.

(** A driver built from the whole configuration. *)
Definition s0 : state :=
  {| this := constructor 1 (Some data0); env := world0 |}.

(** A driver built with no configuration at all. *)
Definition s_blank : state :=
  {| this := constructor 1 None; env := world0 |}.

Definition unavailable : remote_error :=
  {| message := "Service Unavailable"; status := Some 503%Z |}.

Definition internal_error : remote_error :=
  {| message := "Internal Error"; status := Some 500%Z |}.

(** The same message as [internal_error], another error object. *)
Definition internal_error_again : remote_error :=
  {| message := "Internal Error"; status := None |}.

Definition not_found : remote_error :=
  {| message := "File not found"; status := Some 404%Z |}.

(** An SDK whose [files.list] calls are answered from a script, whose
    [files.get] calls give [content] from the call numbered [ok_from] on,
    and whose token calls succeed. *)
Definition scripted (answers : list (remote_error + list_response))
    (ok_from : nat) (content : list Byte.byte) : remote :=
  {| files_list := fun w _ =>
       nth (List.length (list_trace w)) answers (inl unavailable);
     files_get := fun w _ =>
       if Nat.leb ok_from (List.length (get_trace w)) then inr content
       else inl unavailable;
     getToken := fun _ _ => inr fresh_token;
     refreshAccessToken := fun _ _ => inr fresh_token |}.

(** An SDK every call of which fails. *)
Definition failing : remote :=
  {| files_list := fun _ _ => inl unavailable;
     files_get := fun _ _ => inl unavailable;
     getToken := fun _ _ => inl unavailable;
     refreshAccessToken := fun _ _ => inl unavailable |}.


(** An SDK whose listing always has a next page. *)
Definition looping : remote :=
  {| files_list := fun _ _ =>
       inr {| nextPageToken := Some "~!!~AI9"; files := [] |};
     files_get := fun _ _ => inl unavailable;
     getToken := fun _ _ => inl unavailable;
     refreshAccessToken := fun _ _ => inl unavailable |}.

(** An instance constructed with the drive part of the configuration
    only. *)
Definition s_drive_only : state :=
  {| this := constructor 1 (Some {| oAuth := None; drive := drive data0 |});
     env := world0 |}.

Definition file_of (n : string) : file :=
  {| id := n; name := n; modifiedTime := "2020-09-13T12:26:40.000Z";
     parents := ["0AJ"]; size := "1" |}.

Definition page1 : list_response :=
  {| nextPageToken := Some "~!!~AI9"; files := [file_of "c"; file_of "a"] |}.

Definition page2 : list_response :=
  {| nextPageToken := None; files := [file_of "b"] |}.

End Examples.

(** * Properties *)

(** ** The main error of an exhausted retry *)

Lemma mainError_from_some errors :
  forall counts m c,
  exists m', mainError_from errors counts (Some m) c = Some m'.
Proof.
  induction errors as [|e errors IH]; intros counts m c; cbn.
  - exists m. reflexivity.
  - destruct (Nat.leb c (counts (message e) + 1)); apply IH.
Qed.

(** As soon as one error is recorded there is a main error. *)
Lemma mainError_snoc errors e : exists m, mainError (errors ++ [e]) = Some m.
Proof.
  unfold mainError. destruct errors as [|e0 errors]; cbn.
  - exists e. reflexivity.
  - apply mainError_from_some.
Qed.



(** The main error is one of the recorded errors. *)
Lemma mainError_from_In errors :
  forall counts main c m,
    mainError_from errors counts main c = Some m ->
    main = Some m \/ In m errors.
Proof.
  induction errors as [|e errors IH]; intros counts main c m H; cbn in H.
  - left. exact H.
  - destruct (Nat.leb c (counts (message e) + 1)).
    + apply IH in H. destruct H as [H|H].
      * injection H as <-. right. left. reflexivity.
      * right. right. exact H.
    + apply IH in H. destruct H as [H|H]; [left; exact H|right; right; exact H].
Qed.

Lemma mainError_In errors m : mainError errors = Some m -> In m errors.
Proof.
  intros H. apply mainError_from_In in H. destruct H as [H|H];
    [discriminate|exact H].
Qed.

(** ** The retry wrapper around [files.list] *)

Section Retry.

Variable rem : remote.

Lemma pRetry_attempt_list (p : params) :
  forall r es a s,
  exists errs evs,
    let (res, s') :=
      pRetry_attempt (driveClient_files_list rem p) onFailedAttempt es a r s in
    same_but_list s s' /\
    log (env s') = log (env s) ++ evs /\
    forallb is_attempt_failed evs = true /\
    List.length evs = List.length errs /\
    match res with
    | Resolved P =>
        list_trace (env s') =
          list_trace (env s) ++ failed_lists p errs ++ [(p, inr P)] /\
        List.length errs <= r
    | Rejected e =>
        list_trace (env s') = list_trace (env s) ++ failed_lists p errs /\
        List.length errs = S r /\
        exists m, mainError (es ++ errs) = Some m /\ e = RemoteError m
    end.
Proof.
  induction r as [|r IH]; intros es a s.
  - cbn [pRetry_attempt]. unfold bind, driveClient_files_list.
    destruct (files_list rem (env s) p) as [e|P] eqn:E; cbn.
    + exists [e], [error_AttemptFailed a 0]. cbn.
      destruct (mainError_snoc es e) as [m Hm].
      unfold reject_mainError. rewrite Hm.
      split; [same_frame|]. do 5 (split; [reflexivity|]).
      exists m. split; reflexivity.
    + exists [], []. cbn. rewrite app_nil_r.
      split; [same_frame|]. do 4 (split; [reflexivity|]). lia.
  - cbn [pRetry_attempt]. unfold bind at 1. unfold driveClient_files_list at 1.
    destruct (files_list rem (env s) p) as [e|P] eqn:E; cbn [of_remote].
    + unfold bind at 1. cbn [onFailedAttempt logger with_env].
      match goal with
      | |- context [pRetry_attempt _ _ _ (S a) r ?s1] =>
          destruct (IH (es ++ [e]) (S a) s1) as (errs & evs & H)
      end.
      exists (e :: errs), (error_AttemptFailed a (S r) :: evs).
      match goal with
      | |- context [pRetry_attempt _ _ _ (S a) r ?s1] =>
          destruct (pRetry_attempt (driveClient_files_list rem p)
                      onFailedAttempt (es ++ [e]) (S a) r s1)
            as [res s'] eqn:R
      end.
      cbn in H. destruct H as (Hf & Hl & He & Hn & Hr).
      split; [exact Hf|].
      split; [rewrite Hl, <- app_assoc; reflexivity|].
      split; [cbn; exact He|].
      split; [cbn; congruence|].
      destruct res as [P|e1].
      * destruct Hr as [Ht Hle]. split; [|cbn; lia].
        rewrite Ht. cbn. rewrite <- app_assoc. reflexivity.
      * destruct Hr as (Ht & Hle & m & Hm & ->).
        split; [rewrite Ht; cbn; rewrite <- app_assoc; reflexivity|].
        split; [cbn; lia|].
        exists m. rewrite <- app_assoc in Hm. split; [exact Hm|reflexivity].
    + cbn. exists [], []. cbn. rewrite app_nil_r.
      split; [same_frame|]. do 4 (split; [reflexivity|]). lia.
Qed.

(** The retried page fetch of [getFileList], for any answers of the SDK:
    the calls it adds are failed calls of the one request, closed by the
    page when it is fulfilled; one failure event is logged per failed
    call; a rejection comes after exactly [retries + 1] failed calls and
    carries their main error. *)
Lemma pRetry_list (p : params) (retries : nat) (s : state) :
  exists errs evs,
    let (res, s') :=
      pRetry (driveClient_files_list rem p) onFailedAttempt retries s in
    same_but_list s s' /\
    log (env s') = log (env s) ++ evs /\
    forallb is_attempt_failed evs = true /\
    List.length evs = List.length errs /\
    match res with
    | Resolved P =>
        list_trace (env s') =
          list_trace (env s) ++ failed_lists p errs ++ [(p, inr P)] /\
        List.length errs <= retries
    | Rejected e =>
        list_trace (env s') = list_trace (env s) ++ failed_lists p errs /\
        List.length errs = S retries /\
        exists m, mainError errs = Some m /\ e = RemoteError m
    end.
Proof. exact (pRetry_attempt_list p retries [] 1 s). Qed.

End Retry.

Arguments pRetry : simpl never.

(** ** The listing loop, for any answers of the SDK *)

Lemma pages_of_app tr1 tr2 : pages_of (tr1 ++ tr2) = pages_of tr1 ++ pages_of tr2.
Proof.
  induction tr1 as [|[p [e|P]] tr1 IH]; cbn; [reflexivity|exact IH|].
  rewrite IH. reflexivity.
Qed.

Lemma pages_of_failed p errs : pages_of (failed_lists p errs) = [].
Proof. induction errs as [|e errs IH]; cbn; [reflexivity|exact IH]. Qed.

Lemma Forall_failed_lists (Q : params * (remote_error + list_response) -> Prop) p errs :
  (forall a, Q (p, a)) -> Forall Q (failed_lists p errs).
Proof.
  intros H. induction errs as [|e errs IH]; cbn; constructor; auto.
Qed.

Section Listing.

Variable rem : remote.

Lemma getFileList_loop_spec (q fields : string) (full : bool)
    (orderBy : option string) :
  forall fuel data tok counter s,
  exists calls evs,
    let (r, s') :=
      getFileList_loop rem fuel q fields full orderBy data tok counter s in
    same_but_list s s' /\
    list_trace (env s') = list_trace (env s) ++ calls /\
    log (env s') = log (env s) ++ evs /\
    Forall (issued_for q fields orderBy) calls /\
    match r with
    | Some (Resolved (defined d)) =>
        d = data ++ List.concat (map files (pages_of calls))
    | Some (Resolved undefined) => False
    | _ => True
    end.
Proof.
  induction fuel as [|fuel IH]; intros data tok counter s.
  { exists [], []. cbn. rewrite !app_nil_r. split; [same_frame|].
    do 2 (split; [reflexivity|]). split; [constructor|exact I]. }
    cbn [getFileList_loop]. unfold bind at 1. cbn [logger with_env].
    unfold bind at 1. cbn [get_this this env _data].
    destruct (drive (_data (this s))) as [drv|] eqn:D.
    2:{ exists [], [debug_GettingPage counter]. cbn. rewrite !app_nil_r.
        split; [same_frame|].
        do 2 (split; [reflexivity|]). split; [constructor|exact I]. }
    unfold bind at 1.
    match goal with
    | |- context [pRetry ?i _ 3 ?s1] =>
        destruct (pRetry_list rem (list_params drv q fields orderBy tok) 3 s1)
          as (errs & evs & H);
        destruct (pRetry i onFailedAttempt 3 s1) as [res s2] eqn:R
    end.
    cbn in H. destruct H as (Hf & Hl & He & Hn & Hr).
    assert (Hp : forall a, issued_for q fields orderBy
                            (list_params drv q fields orderBy tok, a))
      by (intros a; exists drv, tok; reflexivity).
    destruct res as [P|e].
    - destruct Hr as [Ht Hle].
      destruct (truthy (if truthy (nextPageToken P) && full
                        then nextPageToken P else None)) eqn:T.
      + destruct (IH (data ++ files P)
                    (if truthy (nextPageToken P) && full
                     then nextPageToken P else None) (S counter) s2)
          as (calls & evs2 & H2).
        destruct (getFileList_loop rem fuel q fields full orderBy
                    (data ++ files P)
                    (if truthy (nextPageToken P) && full
                     then nextPageToken P else None) (S counter) s2)
          as [r s3] eqn:L.
        destruct H2 as (Hf2 & Ht2 & Hl2 & Hq2 & Hr2).
        exists (failed_lists (list_params drv q fields orderBy tok) errs
                ++ [(list_params drv q fields orderBy tok, inr P)] ++ calls),
               (debug_GettingPage counter :: evs ++ evs2).
        split; [revert Hf Hf2; same_frame|].
        split; [rewrite Ht2, Ht, <- !app_assoc; reflexivity|].
        split; [rewrite Hl2, Hl, <- !app_assoc; reflexivity|].
        split.
        { apply Forall_app; split; [apply Forall_failed_lists; exact Hp|].
          constructor; [apply Hp|exact Hq2]. }
        destruct r as [[[|d]|]|]; auto.
        rewrite pages_of_app, pages_of_failed. cbn.
        rewrite Hr2, <- app_assoc. reflexivity.
      + unfold bind. cbn.
        exists (failed_lists (list_params drv q fields orderBy tok) errs
                ++ [(list_params drv q fields orderBy tok, inr P)]),
               (debug_GettingPage counter :: evs
                ++ [info_GotFiles (List.length (data ++ files P))]).
        split; [revert Hf; same_frame|].
        split; [rewrite Ht; reflexivity|].
        split; [rewrite Hl, <- !app_assoc; reflexivity|].
        split.
        { apply Forall_app; split; [apply Forall_failed_lists; exact Hp|].
          constructor; [apply Hp|constructor]. }
        rewrite pages_of_app, pages_of_failed. cbn. rewrite app_nil_r.
        reflexivity.
    - destruct Hr as (Ht & Hle & _).
      exists (failed_lists (list_params drv q fields orderBy tok) errs),
             (debug_GettingPage counter :: evs).
      split; [revert Hf; same_frame|].
      split; [exact Ht|].
      split; [rewrite Hl, <- app_assoc; reflexivity|].
      split; [apply Forall_failed_lists; exact Hp|exact I].
Qed.

End Listing.

(** ** Listing against a scripted SDK *)

Lemma serves_head rem n a answers w p :
  serves rem n (a :: answers) ->
  List.length (list_trace w) = n ->
  files_list rem w p = a.
Proof.
  intros H L. apply (H w p 0 a); [reflexivity|lia].
Qed.

Lemma serves_tail rem n a answers :
  serves rem n (a :: answers) -> serves rem (S n) answers.
Proof.
  intros H w p i b Hb L. apply (H w p (S i) b); [exact Hb|lia].
Qed.

Section Scripted.

Variable rem : remote.

Lemma pRetry_attempt_served (p : params) (P : list_response)
    (rest : list (remote_error + list_response)) :
  forall errs r es a s,
    List.length errs <= r ->
    serves rem (List.length (list_trace (env s)))
      (map inl errs ++ inr P :: rest) ->
    exists s',
      pRetry_attempt (driveClient_files_list rem p) onFailedAttempt es a r s
        = (Resolved P, s') /\
      same_but_list s s' /\
      list_trace (env s') =
        list_trace (env s) ++ failed_lists p errs ++ [(p, inr P)] /\
      serves rem (List.length (list_trace (env s'))) rest.
Proof.
  induction errs as [|e errs IH]; intros r es a s Hle Hs.
  - cbn [map app] in Hs.
    assert (E : files_list rem (env s) p = inr P)
      by (eapply serves_head; [exact Hs|reflexivity]).
    eexists. split.
    { destruct r; cbn [pRetry_attempt]; unfold bind, driveClient_files_list;
        rewrite E; cbn; reflexivity. }
    split; [same_frame|]. cbn. split; [reflexivity|].
    rewrite length_app. cbn. rewrite Nat.add_1_r.
    eapply serves_tail. exact Hs.
  - cbn [map app] in Hs.
    assert (E : files_list rem (env s) p = inl e)
      by (eapply serves_head; [exact Hs|reflexivity]).
    destruct r as [|r]; [cbn in Hle; lia|].
    cbn [pRetry_attempt]. unfold bind at 1.
    unfold driveClient_files_list at 1. rewrite E. cbn [of_remote].
    unfold bind at 1. cbn [onFailedAttempt logger with_env].
    match goal with
    | |- context [pRetry_attempt _ _ _ (S a) r ?s1] =>
        destruct (IH r (es ++ [e]) (S a) s1) as (s' & R & Hf & Ht & Hs')
    end.
    { cbn in Hle. lia. }
    { cbn. rewrite length_app. cbn. rewrite Nat.add_1_r.
      eapply serves_tail. exact Hs. }
    exists s'. split; [exact R|].
    split; [revert Hf; same_frame|].
    split; [rewrite Ht; cbn; rewrite <- app_assoc; reflexivity|exact Hs'].
Qed.


(** One turn of the loop whose page fetch gets through. *)
Lemma getFileList_loop_page (q fields : string) (full : bool)
    (orderBy : option string) (drv : drive_config) (errs : list remote_error)
    (P : list_response) (rest : list (remote_error + list_response))
    (fuel : nat) (data : list file) (tok : option string) (counter : nat)
    (s : state) :
  drive (_data (this s)) = Some drv ->
  List.length errs <= 3 ->
  serves rem (List.length (list_trace (env s)))
    (map inl errs ++ inr P :: rest) ->
  exists s1,
    same_but_list s s1 /\
    serves rem (List.length (list_trace (env s1))) rest /\
    getFileList_loop rem (S fuel) q fields full orderBy data tok counter s =
      let tok' := if truthy (nextPageToken P) && full
                  then nextPageToken P else None in
      if truthy tok'
      then getFileList_loop rem fuel q fields full orderBy (data ++ files P)
             tok' (S counter) s1
      else (Some (Resolved (defined (data ++ files P))),
            snd (logger (info_GotFiles (List.length (data ++ files P))) s1)).
Proof.
  intros D Hle Hs.
  cbn [getFileList_loop]. unfold bind at 1. cbn [logger with_env].
  unfold bind at 1. cbn [get_this this env _data]. rewrite D.
  unfold bind at 1. unfold pRetry.
  match goal with
  | |- context [pRetry_attempt ?i _ [] 1 3 ?s0] =>
      destruct (pRetry_attempt_served
                  (list_params drv q fields orderBy tok) P rest errs 3 [] 1 s0
                  Hle Hs)
        as (s1 & R & Hf & Ht & Hs1)
  end.
  rewrite R. exists s1. split; [revert Hf; same_frame|].
  split; [exact Hs1|]. cbn zeta.
  destruct (truthy (if truthy (nextPageToken P) && full
                    then nextPageToken P else None)); reflexivity.
Qed.


(** The turns of a full listing that end with a next-page token. *)
Lemma getFileList_loop_rounds (q fields : string) (orderBy : option string)
    (drv : drive_config) (rest : list (remote_error + list_response))
    (fuel : nat) :
  forall init data tok counter s,
    drive (_data (this s)) = Some drv ->
    Forall retriable init ->
    Forall has_next init ->
    serves rem (List.length (list_trace (env s))) (answers_of init ++ rest) ->
    exists s' tok',
      same_but_list s s' /\
      serves rem (List.length (list_trace (env s'))) rest /\
      getFileList_loop rem (List.length init + fuel) q fields true orderBy
        data tok counter s =
      getFileList_loop rem fuel q fields true orderBy
        (data ++ files_of init) tok' (List.length init + counter) s'.
Proof.
  induction init as [|[errs P] init IH]; intros data tok counter s D Hr Hn Hs.
  - exists s, tok. split; [same_frame|]. split; [exact Hs|].
    cbn. unfold files_of. cbn. rewrite app_nil_r. reflexivity.
  - inversion Hr as [|? ? Hr1 Hr2]; subst. inversion Hn as [|? ? Hn1 Hn2]; subst.
    unfold retriable in Hr1. unfold has_next in Hn1. cbn [fst snd] in Hr1, Hn1.
    cbn [answers_of flat_map fst snd] in Hs. rewrite <- !app_assoc in Hs.
    cbn [app] in Hs.
    destruct (getFileList_loop_page q fields true orderBy drv errs P
                (answers_of init ++ rest) (List.length init + fuel)
                data tok counter s D Hr1 Hs)
      as (s1 & Hf & Hs1 & E).
    cbn [List.length Nat.add]. rewrite E. cbn zeta.
    rewrite Hn1. cbn [andb]. rewrite Hn1.
    assert (D1 : drive (_data (this s1)) = Some drv).
    { destruct Hf as [Ht _]. rewrite Ht. exact D. }
    destruct (IH (data ++ files P) (nextPageToken P) (S counter) s1
                D1 Hr2 Hn2 Hs1)
      as (s' & tok' & Hf' & Hs' & E').
    exists s', tok'. split; [revert Hf Hf'; same_frame|].
    split; [exact Hs'|]. rewrite E'.
    unfold files_of. cbn [map List.concat snd]. rewrite <- app_assoc.
    rewrite Nat.add_succ_r. reflexivity.
Qed.

End Scripted.

(** ** Entering the two guarded methods *)

Lemma checkAuthorizationStatus_spec (s : state) :
  checkAuthorizationStatus s =
    (authorized (this s),
     if authorized (this s) then s
     else snd (logger error_HavntAuthorize s)).
Proof.
  unfold checkAuthorizationStatus, authorized, bind, get_this.
  destruct (oAuth2Client (this s)), (driveClient (this s)); reflexivity.
Qed.

Lemma getFileList_authorized rem q fields full orderBy fuel s :
  authorized (this s) = true ->
  getFileList rem q fields full orderBy fuel s =
    getFileList_loop rem fuel q
      (or_default fields "id, name, modifiedTime, parents, size")
      (match full with Some b => b | None => false end)
      orderBy [] None 1
      (snd (logger (info_GettingFullFileList q) s)).
Proof.
  intros A. unfold getFileList. unfold bind at 1.
  rewrite checkAuthorizationStatus_spec, A. reflexivity.
Qed.

Lemma getFileList_unauthorized rem q fields full orderBy fuel s :
  authorized (this s) = false ->
  getFileList rem q fields full orderBy fuel s =
    (Some (Resolved undefined), snd (logger error_HavntAuthorize s)).
Proof.
  intros A. unfold getFileList. unfold bind at 1.
  rewrite checkAuthorizationStatus_spec, A. reflexivity.
Qed.

Lemma downloadFile_unauthorized rem fileId s :
  authorized (this s) = false ->
  downloadFile rem fileId s =
    (Resolved undefined, snd (logger error_HavntAuthorize s)).
Proof.
  intros A. unfold downloadFile. unfold bind at 1.
  rewrite checkAuthorizationStatus_spec, A. reflexivity.
Qed.

Lemma authorized_drive (d : driver) :
  authorized d = true -> well_formed d -> exists drv, drive (_data d) = Some drv.
Proof.
  unfold authorized, well_formed. intros A [W _].
  destruct (oAuth2Client d); [|discriminate].
  destruct (driveClient d); [|discriminate].
  destruct (drive (_data d)) as [drv|]; [exists drv; reflexivity|].
  exfalso. apply W; [discriminate|reflexivity].
Qed.

Lemma constructor_well_formed id data : well_formed (constructor id data).
Proof.
  unfold well_formed, constructor.
  destruct data as [[o [drv|]]|]; cbn; split; congruence.
Qed.


Lemma answers_of_pages (pages : list list_response) :
  answers_of (map no_failure pages) = map inr pages.
Proof.
  induction pages as [|P pages IH]; cbn; [reflexivity|].
  unfold answers_of in IH. rewrite IH. reflexivity.
Qed.

Lemma files_of_pages (pages : list list_response) :
  files_of (map no_failure pages) = List.concat (map files pages).
Proof.
  unfold files_of. rewrite map_map. reflexivity.
Qed.

(** A full listing against a scripted SDK: every page but the last comes
    with a next-page token, each page fetch meets at most three failed
    calls, and the files come back in page order. *)
Lemma getFileList_rounds rem q fields orderBy (init : list round)
    (final : round) fuel s :
  authorized (this s) = true ->
  well_formed (this s) ->
  Forall retriable (init ++ [final]) ->
  Forall has_next init ->
  truthy (nextPageToken (snd final)) = false ->
  serves rem (List.length (list_trace (env s))) (answers_of (init ++ [final])) ->
  List.length init < fuel ->
  fst (getFileList rem q fields (Some true) orderBy fuel s) =
    Some (Resolved (defined (files_of (init ++ [final])))).
Proof.
  intros A W Hr Hn Hl Hs Hfuel.
  destruct (authorized_drive _ A W) as [drv D].
  rewrite (getFileList_authorized _ _ _ _ _ _ _ A).
  apply Forall_app in Hr. destruct Hr as [Hr Hrf].
  inversion Hrf as [|? ? Hrf1 _]; subst.
  replace fuel with (List.length init + S (fuel - S (List.length init))) by lia.
  unfold answers_of in Hs. rewrite flat_map_app in Hs.
  destruct final as [errs P]. cbn [flat_map fst snd] in Hs, Hl.
  rewrite app_nil_r in Hs.
  match goal with
  | |- context [getFileList_loop _ _ _ ?f _ _ _ _ _ ?s0] =>
      destruct (getFileList_loop_rounds rem q f orderBy drv
                  (map inl errs ++ [inr P]) (S (fuel - S (List.length init)))
                  init [] None 1 s0 D Hr Hn Hs)
        as (s1 & tok1 & Hf1 & Hs1 & E1)
  end.
  rewrite E1.
  assert (D1 : drive (_data (this s1)) = Some drv).
  { destruct Hf1 as [Ht _]. rewrite Ht. exact D. }
  match goal with
  | |- context [getFileList_loop _ (S ?n) _ ?f _ _ ?d ?t ?c ?s0] =>
      destruct (getFileList_loop_page rem q f true orderBy drv errs P []
                  n d t c s0 D1 Hrf1 Hs1)
        as (s2 & _ & _ & E2)
  end.
  rewrite E2. cbn zeta. rewrite Hl. cbn [andb truthy fst].
  unfold files_of. rewrite map_app, concat_app. cbn. rewrite app_nil_r.
  reflexivity.
Qed.


(** ** Runs of the example instances *)

Lemma scripted_serves answers ok_from content :
  serves (Examples.scripted answers ok_from content) 0 answers.
Proof.
  intros w p i a Hi Hl. cbn in *. subst i.
  apply nth_error_nth. exact Hi.
Qed.

Example getFileList_two_pages :
  fst (getFileList (Examples.scripted [inr Examples.page1; inr Examples.page2] 0 []) "name contains 'r'"
         None (Some true) None 5 Examples.s0)
  = Some (Resolved (defined [Examples.file_of "c"; Examples.file_of "a"; Examples.file_of "b"])).
Proof. reflexivity. Qed.

Example getFileList_first_page_only :
  fst (getFileList (Examples.scripted [inr Examples.page1; inr Examples.page2] 0 []) "name contains 'r'"
         None None None 5 Examples.s0)
  = Some (Resolved (defined [Examples.file_of "c"; Examples.file_of "a"])).
Proof. reflexivity. Qed.

Example getFileList_retries_then_page :
  fst (getFileList
         (Examples.scripted [inl Examples.unavailable; inl Examples.unavailable; inl Examples.unavailable;
                    inr Examples.page2] 0 [])
         "" None (Some true) None 5 Examples.s0)
  = Some (Resolved (defined [Examples.file_of "b"])).
Proof. reflexivity. Qed.

Example getFileList_1000_and_42 :
  match fst (getFileList
               (Examples.scripted
                  [inr {| nextPageToken := Some "~!!~AI9";
                          files := repeat (Examples.file_of "r") 1000 |};
                   inr {| nextPageToken := None;
                          files := repeat (Examples.file_of "s") 42 |}] 0 [])
               "name contains 'report'" None (Some true) None 2 Examples.s0)
  with
  | Some (Resolved (defined d)) =>
      List.length d = 1042 /\
      nth 1000 d (Examples.file_of "") = Examples.file_of "s"
  | _ => False
  end.
Proof. vm_compute. split; reflexivity. Qed.

Example downloadFile_third_attempt :
  let r := downloadFile (Examples.scripted [] 2 [Byte.x50; Byte.x4b]) "file123" Examples.s0 in
  fst r = Resolved (defined [Byte.x50; Byte.x4b]) /\
  List.length (get_trace (env (snd r))) = 3 /\
  log (env (snd r)) =
    [info_DownloadingFile "file123";
     error_AttemptFailed 1 3; error_AttemptFailed 2 2].
Proof. repeat split. Qed.

(** * Listing *)

(** C2: a listing with [full = true] on an authorized driver, against
    an SDK that answers with the pages [init ++ [final]] where every page
    of [init] carries a next-page token and [final] carries none, returns
    the files of these pages concatenated in page order, each page's
    files in the order received. *)
Theorem getFileList_full_concatenates_pages :
  forall (rem : remote) (q : string) (fields orderBy : option string)
         (init : list list_response) (final : list_response)
         (fuel : nat) (s : state),
    fst (checkAuthorizationStatus s) = true ->
    well_formed (this s) ->
    Forall (fun P => truthy (nextPageToken P) = true) init ->
    truthy (nextPageToken final) = false ->
    serves rem (List.length (list_trace (env s))) (map inr (init ++ [final])) ->
    List.length init < fuel ->
    fst (getFileList rem q fields (Some true) orderBy fuel s) =
      Some (Resolved (defined (List.concat (map files (init ++ [final]))))).
Proof.
  intros rem q fields orderBy init final fuel s A W Hn Hl Hs Hfuel.
  rewrite checkAuthorizationStatus_spec in A; cbn [fst] in A.
  pose proof (getFileList_rounds rem q fields orderBy
                (map no_failure init) (no_failure final) fuel s A W) as H.
  change [no_failure final] with (map no_failure [final]) in H.
  rewrite <- map_app, files_of_pages, answers_of_pages, length_map in H.
  apply H; try assumption.
  - apply Forall_map, Forall_forall.
    intros P _. unfold retriable. cbn. lia.
  - apply Forall_map. exact Hn.
Qed.

Lemma getFileList_full_concatenates_pages_witness :
  fst (getFileList
         (Examples.scripted [inr Examples.page1; inr Examples.page2] 0 [])
         "name contains 'report'" None (Some true) None 2 Examples.s0) =
    Some (Resolved (defined
      (List.concat (map files ([Examples.page1] ++ [Examples.page2]))))).
Proof.
  apply (getFileList_full_concatenates_pages
           (Examples.scripted [inr Examples.page1; inr Examples.page2] 0 [])
           "name contains 'report'" None None
           [Examples.page1] Examples.page2 2 Examples.s0).
  - reflexivity.
  - apply constructor_well_formed.
  - repeat constructor.
  - reflexivity.
  - apply scripted_serves.
  - cbn. lia.
Defined.



(** Every [files.list] call of a listing is one the loop builds from the
    arguments of the method, and a listing that returns files returns the
    files of the pages received, in the order of their arrival. *)
Lemma getFileList_spec rem q fields full orderBy fuel s :
  let (r, s') := getFileList rem q fields full orderBy fuel s in
  exists calls,
    same_but_list s s' /\
    list_trace (env s') = list_trace (env s) ++ calls /\
    Forall (issued_for q
              (or_default fields "id, name, modifiedTime, parents, size")
              orderBy) calls /\
    match r with
    | Some (Resolved (defined d)) =>
        d = List.concat (map files (pages_of calls))
    | _ => True
    end.
Proof.
  destruct (authorized (this s)) eqn:A.
  - rewrite (getFileList_authorized _ _ _ _ _ _ _ A).
    match goal with
    | |- context [getFileList_loop _ _ _ ?f ?b _ ?d ?t ?c ?s0] =>
        destruct (getFileList_loop_spec rem q f b orderBy fuel d t c s0)
          as (calls & evs & H);
        destruct (getFileList_loop rem fuel q f b orderBy d t c s0)
          as [r s'] eqn:L
    end.
    destruct H as (Hf & Ht & Hl & Hq & Hr).
    exists calls. split; [revert Hf; same_frame|].
    split; [exact Ht|]. split; [exact Hq|].
    destruct r as [[[|d]|]|]; auto.
  - rewrite (getFileList_unauthorized _ _ _ _ _ _ _ A).
    exists []. split; [same_frame|]. cbn. rewrite app_nil_r.
    split; [reflexivity|]. split; [constructor|exact I].
Qed.

(** C4: on a driver for which [checkAuthorizationStatus()] is false,
    [getFileList] and [downloadFile] return [undefined] and issue no call
    to the SDK. *)
Theorem unauthorized_returns_undefined_without_network_call :
  forall (rem : remote) (s : state),
    fst (checkAuthorizationStatus s) = false ->
    (forall q fields full orderBy fuel,
       let (r, s') := getFileList rem q fields full orderBy fuel s in
       r = Some (Resolved undefined) /\ no_network_call s s') /\
    (forall fileId,
       let (r, s') := downloadFile rem fileId s in
       r = Resolved undefined /\ no_network_call s s').
Proof.
  intros rem s A. rewrite checkAuthorizationStatus_spec in A. cbn [fst] in A.
  split.
  - intros q fields full orderBy fuel.
    rewrite (getFileList_unauthorized _ _ _ _ _ _ _ A).
    split; [reflexivity|same_frame].
  - intros fileId. rewrite (downloadFile_unauthorized _ _ _ A).
    split; [reflexivity|same_frame].
Qed.

Lemma unauthorized_returns_undefined_without_network_call_witness :
  (forall q fields full orderBy fuel,
     let (r, s') :=
       getFileList Examples.failing q fields full orderBy fuel
         Examples.s_blank in
     r = Some (Resolved undefined) /\ no_network_call Examples.s_blank s') /\
  (forall fileId,
     let (r, s') := downloadFile Examples.failing fileId Examples.s_blank in
     r = Resolved undefined /\ no_network_call Examples.s_blank s').
Proof.
  apply (unauthorized_returns_undefined_without_network_call
           Examples.failing Examples.s_blank).
  reflexivity.
Defined.



Example getFileList_page_then_four_failures :
  fst (getFileList
         (Examples.scripted
            [inr Examples.page1;
             inl Examples.internal_error; inl Examples.internal_error_again;
             inl Examples.unavailable; inl Examples.not_found] 0 [])
         "" None (Some true) None 3 Examples.s0) =
    Some (Rejected (RemoteError Examples.internal_error_again)).
Proof. reflexivity. Qed.

(** C9: every [files.list] request of a listing asks for a page size of
    1000 and for the [orderBy] argument as its ordering when that is a
    non-empty string, for "modifiedTime desc" otherwise; the files
    returned are those of the pages received, in the order received. *)
Theorem getFileList_page_size_and_ordering :
  forall (rem : remote) (q : string) (fields : option string)
         (full : option bool) (orderBy : option string)
         (fuel : nat) (s : state),
    let (r, s') := getFileList rem q fields full orderBy fuel s in
    exists calls,
      list_trace (env s') = list_trace (env s) ++ calls /\
      Forall (fun c =>
                p_pageSize (fst c) = 1000%Z /\
                p_orderBy (fst c) =
                  match orderBy with
                  | Some o => if String.eqb o "" then "modifiedTime desc" else o
                  | None => "modifiedTime desc"
                  end) calls /\
      match r with
      | Some (Resolved (defined d)) =>
          d = List.concat (map files (pages_of calls))
      | _ => True
      end.
Proof.
  intros rem q fields full orderBy fuel s.
  pose proof (getFileList_spec rem q fields full orderBy fuel s) as H.
  destruct (getFileList rem q fields full orderBy fuel s) as [r s'].
  destruct H as (calls & _ & Ht & Hq & Hr).
  exists calls. split; [exact Ht|]. split; [|exact Hr].
  eapply Forall_impl; [|exact Hq].
  intros c (drv & tk & ->). split; reflexivity.
Qed.

(** C10: when the [fields] argument is omitted or is the empty string,
    every [files.list] request of the listing asks for the fields
    'nextPageToken, files(id, name, modifiedTime, parents, size)'. *)
Theorem getFileList_default_fields :
  forall (rem : remote) (q : string) (fields : option string)
         (full : option bool) (orderBy : option string)
         (fuel : nat) (s : state),
    fields = None \/ fields = Some "" ->
    let (r, s') := getFileList rem q fields full orderBy fuel s in
    exists calls,
      list_trace (env s') = list_trace (env s) ++ calls /\
      Forall (fun c =>
                p_fields (fst c) =
                  "nextPageToken, files(id, name, modifiedTime, parents, size)")
             calls.
Proof.
  intros rem q fields full orderBy fuel s Hfields.
  pose proof (getFileList_spec rem q fields full orderBy fuel s) as H.
  destruct (getFileList rem q fields full orderBy fuel s) as [r s'].
  destruct H as (calls & _ & Ht & Hq & _).
  exists calls. split; [exact Ht|].
  eapply Forall_impl; [|exact Hq].
  intros c (drv & tk & ->). destruct Hfields; subst; reflexivity.
Qed.

Lemma getFileList_default_fields_witness :
  let (r, s') :=
    getFileList
      (Examples.scripted [inr Examples.page1; inr Examples.page2] 0 [])
      "" (Some "") (Some true) None 4 Examples.s0 in
  exists calls,
    list_trace (env s') = list_trace (env Examples.s0) ++ calls /\
    Forall (fun c =>
              p_fields (fst c) =
                "nextPageToken, files(id, name, modifiedTime, parents, size)")
           calls.
Proof.
  apply (getFileList_default_fields
           (Examples.scripted [inr Examples.page1; inr Examples.page2] 0 [])
           "" (Some "") (Some true) None 4 Examples.s0).
  right. reflexivity.
Defined.

(** * Retry exhaustion *)

Section Exhaustion.

Variable rem : remote.



(** The function [downloadFile] hands to p-retry is one [files.get] call
    as long as the stored configuration has its [drive] entry. *)
Lemma pRetry_attempt_download (fileId : string) (drv : drive_config) :
  forall r es a s,
    drive (_data (this s)) = Some drv ->
    pRetry_attempt
      (d <- get_this ;;
       match drive (_data d) with
       | None => ret (Rejected TypeError)
       | Some drv => driveClient_files_get rem (download_params drv fileId)
       end) onFailedAttempt es a r s =
    pRetry_attempt (driveClient_files_get rem (download_params drv fileId))
      onFailedAttempt es a r s.
Proof.
  induction r as [|r IH]; intros es a s D; cbn [pRetry_attempt];
    unfold bind, get_this; rewrite D;
    destruct (driveClient_files_get rem (download_params drv fileId) s)
      as [[b|[|e|m|]] s1] eqn:G; try reflexivity.
  destruct (onFailedAttempt a (S r) s1) as [u s2] eqn:L.
  apply IH.
  unfold driveClient_files_get in G. injection G as _ <-.
  unfold onFailedAttempt, logger, with_env in L. injection L as _ <-.
  exact D.
Qed.

End Exhaustion.

Lemma downloadFile_authorized rem fileId s drv :
  authorized (this s) = true ->
  drive (_data (this s)) = Some drv ->
  downloadFile rem fileId s =
    let (res, s') :=
      pRetry (driveClient_files_get rem (download_params drv fileId))
        onFailedAttempt 3 (snd (logger (info_DownloadingFile fileId) s)) in
    match res with
    | Rejected e => (Rejected e, s')
    | Resolved data => (Resolved (defined (Buffer_from data)), s')
    end.
Proof.
  intros A D. unfold downloadFile. unfold bind at 1.
  rewrite checkAuthorizationStatus_spec, A. cbn [negb].
  unfold bind at 1. cbn [logger with_env snd]. unfold bind at 1.
  unfold pRetry. rewrite (pRetry_attempt_download rem fileId drv) by exact D.
  match goal with
  | |- context [pRetry_attempt ?i ?h [] 1 3 ?s0] =>
      destruct (pRetry_attempt i h [] 1 3 s0) as [[data|e] s']
  end; reflexivity.
Qed.


Lemma failing_always_fails : always_fails Examples.failing.
Proof.
  split; intros w p; exists Examples.unavailable; reflexivity.
Qed.




Example downloadFile_same_error_four_times :
  let r := downloadFile Examples.failing "file123" Examples.s0 in
  fst r = Rejected (RemoteError Examples.unavailable) /\
  List.length (get_trace (env (snd r))) = 4.
Proof. split; reflexivity. Qed.

(** * Authorization *)

(** C5: [refreshToken] on a client holding a token: when
    [now + 600000] is below the stored [expiry_date] the call returns
    [undefined] and issues no call to the SDK; when it is not (or no
    [expiry_date] is stored) exactly one [refreshAccessToken] call is
    issued and no other, and its answer decides the result. *)
Theorem refreshToken_skew_window :
  forall (rem : remote) (data : option driver_data) (s : state)
         (c : OAuth2) (cr : Credentials),
    refresh_client s data c ->
    credentials c = Some cr ->
    let (r, s') := refreshToken rem data s in
    (forall e, expiry_date cr = Some e -> (now (env s) + 600000 < e)%Z ->
       r = Resolved undefined /\ no_network_call s s') /\
    ((forall e, expiry_date cr = Some e -> ~ (now (env s) + 600000 < e)%Z) ->
       exists a,
         refresh_trace (env s') = refresh_trace (env s) ++ [(c, a)] /\
         getToken_trace (env s') = getToken_trace (env s) /\
         no_file_call s s' /\
         r = match a with
             | inl _ => Rejected (Reason "Error refreshing access token")
             | inr tok => Resolved (defined tok)
             end).
Proof.
  intros rem data s c cr Hc Hcr.
  assert (E : refreshToken rem data s =
              (let s1 := match oAuth2Client (this s) with
                         | Some _ => s
                         | None => snd (set_oAuth2Client c s)
                         end in
               let s2 := snd (logger (debug_TokenExpiryDate (expiry_date cr)) s1) in
               if js_lt (now (env s) + 600000) (expiry_date cr)
               then (Resolved undefined, s2)
               else
                 let s3 := snd (logger info_RefreshingAccessToken s2) in
                 let a := refreshAccessToken rem (env s3) c in
                 let s4 := snd (oAuth2Client_refreshAccessToken rem c s3) in
                 match a with
                 | inl e =>
                     (Rejected (Reason "Error refreshing access token"),
                      snd (logger (error_RefreshingAccessToken e) s4))
                 | inr tok =>
                     (Resolved (defined tok),
                      snd (logger (debug_token tok)
                             (snd (logger info_GotAccessToken s4))))
                 end)).
  { unfold refreshToken. unfold bind at 1. cbn [get_this].
    destruct Hc as [Hc|(Hc & o & Ho & ->)]; rewrite Hc.
    - rewrite Hcr. unfold bind. cbn.
      destruct (js_lt (now (env s) + 600000) (expiry_date cr)); [reflexivity|].
      destruct (refreshAccessToken rem _ c); reflexivity.
    - rewrite Ho. cbn [setCredentials credentials] in Hcr |- *. rewrite Hcr.
      unfold bind. cbn.
      destruct (js_lt (now (env s) + 600000) (expiry_date cr)); [reflexivity|].
      destruct (refreshAccessToken rem _ _); reflexivity. }
  rewrite E. clear E. cbn zeta.
  destruct (js_lt (now (env s) + 600000) (expiry_date cr)) eqn:J.
  - split.
    + intros e He Hlt. split; [reflexivity|].
      destruct (oAuth2Client (this s)); same_frame.
    + intros Hn. exfalso. unfold js_lt in J.
      destruct (expiry_date cr) as [e|]; [|discriminate].
      apply (Hn e eq_refl). apply Z.ltb_lt. exact J.
  - assert (Hge : forall e, expiry_date cr = Some e ->
                    ~ (now (env s) + 600000 < e)%Z).
    { intros e He Hlt. rewrite He in J. cbn in J.
      apply Z.ltb_ge in J. lia. }
    match goal with
    | |- context [refreshAccessToken rem ?w c] =>
        destruct (refreshAccessToken rem w c) as [e0|tok] eqn:Ea
    end.
    + split; [intros e He Hlt; exfalso; exact (Hge e He Hlt)|].
      intros _. exists (inl e0).
      destruct (oAuth2Client (this s)); cbn in Ea |- *; rewrite Ea;
        (split; [reflexivity|]); (split; [reflexivity|]);
        (split; [split; reflexivity|reflexivity]).
    + split; [intros e He Hlt; exfalso; exact (Hge e He Hlt)|].
      intros _. exists (inr tok).
      destruct (oAuth2Client (this s)); cbn in Ea |- *; rewrite Ea;
        (split; [reflexivity|]); (split; [reflexivity|]);
        (split; [split; reflexivity|reflexivity]).
Qed.

Lemma refreshToken_skew_window_witness :
  let (r, s') :=
    refreshToken (Examples.scripted [] 0 []) None Examples.s0 in
  (forall e, expiry_date Examples.stored_token = Some e ->
     (now (env Examples.s0) + 600000 < e)%Z ->
     r = Resolved undefined /\ no_network_call Examples.s0 s') /\
  ((forall e, expiry_date Examples.stored_token = Some e ->
      ~ (now (env Examples.s0) + 600000 < e)%Z) ->
     exists a,
       refresh_trace (env s') =
         refresh_trace (env Examples.s0)
         ++ [(setCredentials
                (new_OAuth2 (client_id Examples.oauth0)
                   (client_secret Examples.oauth0)
                   (redirect_uri Examples.oauth0))
                (Some Examples.stored_token), a)] /\
       getToken_trace (env s') = getToken_trace (env Examples.s0) /\
       no_file_call Examples.s0 s' /\
       r = match a with
           | inl _ => Rejected (Reason "Error refreshing access token")
           | inr tok => Resolved (defined tok)
           end).
Proof.
  apply (refreshToken_skew_window (Examples.scripted [] 0 []) None Examples.s0
           (setCredentials
              (new_OAuth2 (client_id Examples.oauth0)
                 (client_secret Examples.oauth0)
                 (redirect_uri Examples.oauth0))
              (Some Examples.stored_token))
           Examples.stored_token).
  - left. reflexivity.
  - reflexivity.
Defined.

Example refreshToken_inside_window :
  let r := refreshToken (Examples.scripted [] 0 []) None
             {| this := this Examples.s0;
                env := {| now := 1600003000000%Z; list_trace := [];
                          get_trace := []; getToken_trace := [];
                          refresh_trace := []; log := [] |} |} in
  fst r = Resolved (defined Examples.fresh_token) /\
  List.length (refresh_trace (env (snd r))) = 1.
Proof. split; reflexivity. Qed.

Example refreshToken_before_window :
  let r := refreshToken (Examples.scripted [] 0 []) None Examples.s0 in
  fst r = Resolved undefined /\
  List.length (refresh_trace (env (snd r))) = 0.
Proof. split; reflexivity. Qed.

(** The two ends of [authorizeWithCode] once its [oAuth] entry is read:
    one [getToken] call, then either the rejection or the binding. *)
Lemma authorizeWithCode_spec rem (data : driver_data) (o : oauth_config)
    (s : state) :
  oAuth data = Some o ->
  let c := match oAuth2Client (this s) with
           | Some c => c
           | None => new_OAuth2 (client_id o) (client_secret o) (redirect_uri o)
           end in
  let (r, s') := authorizeWithCode rem data s in
  exists a,
    getToken_trace (env s') = getToken_trace (env s) ++ [(code o, a)] /\
    refresh_trace (env s') = refresh_trace (env s) /\
    no_file_call s s' /\
    driveClient (this s') = driveClient (this s) /\
    _data (this s') = _data (this s) /\
    match a with
    | inl _ =>
        r = Rejected (Reason "Error retrieving access token") /\
        oAuth2Client (this s') = Some c
    | inr tok =>
        r = Resolved {| client_id := client_id o;
                        client_secret := client_secret o;
                        redirect_uri := redirect_uri o;
                        token := Some tok;
                        code := None |} /\
        oAuth2Client (this s') = Some (setCredentials c (Some tok))
    end.
Proof.
  intros Ho. unfold authorizeWithCode. unfold bind at 1. cbn [get_this].
  rewrite Ho.
  destruct (oAuth2Client (this s)) as [c0|] eqn:C; unfold bind; cbn;
    match goal with
    | |- context [getToken rem ?w (code o)] =>
        destruct (getToken rem w (code o)) as [e|tok] eqn:G
    end; cbn;
    [exists (inl e)|exists (inr tok)|exists (inl e)|exists (inr tok)];
    do 2 (split; [reflexivity|]); (split; [split; reflexivity|]);
    do 2 (split; [reflexivity|]); rewrite ?C; split; reflexivity.
Qed.

(** C7 (as the code has it): [checkAuthorizationStatus()] is true
    exactly when the OAuth2 client and the drive client are both
    present; it is false on an instance constructed without an [oAuth]
    configuration; on an instance constructed with one, and after an
    [authorizeWithCode] call that resolved, it is true exactly when the
    drive client is present, that is when the instance was constructed
    with a [drive] configuration. *)
Theorem checkAuthorizationStatus_both_clients :
  (forall s : state,
     fst (checkAuthorizationStatus s) = true <->
     oAuth2Client (this s) <> None /\ driveClient (this s) <> None) /\
  (forall (id : Z) (data : option driver_data) (w : world),
     match data with Some d => oAuth d = None | None => True end ->
     fst (checkAuthorizationStatus {| this := constructor id data; env := w |})
       = false) /\
  (forall (id : Z) (d : driver_data) (w : world),
     oAuth d <> None ->
     (fst (checkAuthorizationStatus
             {| this := constructor id (Some d); env := w |}) = true
      <-> drive d <> None)) /\
  (forall (rem : remote) (data : driver_data) (s : state) (r : oauth_config),
     fst (authorizeWithCode rem data s) = Resolved r ->
     (fst (checkAuthorizationStatus (snd (authorizeWithCode rem data s))) = true
      <-> driveClient (this s) <> None)).
Proof.
  assert (B : forall d, authorized d = true <->
                        oAuth2Client d <> None /\ driveClient d <> None).
  { intros d. unfold authorized.
    destruct (oAuth2Client d), (driveClient d); split;
      try discriminate; try (intros [? ?]; congruence).
    intros _. split; discriminate. }
  split; [|split; [|split]].
  - intros s. rewrite checkAuthorizationStatus_spec. cbn [fst]. apply B.
  - intros id data w H. rewrite checkAuthorizationStatus_spec. cbn [fst].
    destruct data as [[o drv]|]; cbn in H |- *; [subst o|]; reflexivity.
  - intros id d w H. rewrite checkAuthorizationStatus_spec. cbn [fst this].
    destruct d as [[o|] [drv|]]; cbn in H |- *; intuition congruence.
  - intros rem data s r H. rewrite checkAuthorizationStatus_spec. cbn [fst].
    destruct (oAuth data) as [o|] eqn:Ho.
    + pose proof (authorizeWithCode_spec rem data o s Ho) as S.
      destruct (authorizeWithCode rem data s) as [r' s']. cbn [fst snd] in *.
      destruct S as (a & _ & _ & _ & Hd & _ & Ha). subst r'.
      destruct a as [e|tok]; destruct Ha as [Hr Hc]; [discriminate|].
      rewrite B, Hc, Hd. split; [intros [_ D]; exact D|].
      intros D. split; [discriminate|exact D].
    + exfalso. revert H. unfold authorizeWithCode. unfold bind at 1.
      cbn [get_this]. rewrite Ho.
      destruct (oAuth2Client (this s)); cbn; discriminate.
Qed.

Lemma checkAuthorizationStatus_both_clients_witness :
  fst (checkAuthorizationStatus
         (snd (authorizeWithCode (Examples.scripted [] 0 []) Examples.data0
                 Examples.s0))) = true
  <-> driveClient (this Examples.s0) <> None.
Proof.
  apply (proj2 (proj2 (proj2 checkAuthorizationStatus_both_clients))
           (Examples.scripted [] 0 []) Examples.data0 Examples.s0
           {| client_id := client_id Examples.oauth0;
              client_secret := client_secret Examples.oauth0;
              redirect_uri := redirect_uri Examples.oauth0;
              token := Some Examples.fresh_token;
              code := None |}).
  reflexivity.
Defined.

(** C7 as stated fails: on an instance constructed without a [drive]
    configuration, [authorizeWithCode] resolves and binds the token, and
    [checkAuthorizationStatus()] is still false. *)
Lemma checkAuthorizationStatus_after_binding_counterexample :
  let r := authorizeWithCode (Examples.scripted [] 0 []) Examples.data0
             Examples.s_blank in
  fst r = Resolved {| client_id := client_id Examples.oauth0;
                      client_secret := client_secret Examples.oauth0;
                      redirect_uri := redirect_uri Examples.oauth0;
                      token := Some Examples.fresh_token;
                      code := None |} /\
  oAuth2Client (this (snd r)) =
    Some (setCredentials
            (new_OAuth2 (client_id Examples.oauth0)
               (client_secret Examples.oauth0)
               (redirect_uri Examples.oauth0))
            (Some Examples.fresh_token)) /\
  fst (checkAuthorizationStatus (snd r)) = false.
Proof. repeat split. Qed.

(** C8: [authorizeWithCode] with an [oAuth] configuration issues
    exactly one [getToken] call and no other call; when that call fails
    the method is rejected with 'Error retrieving access token' and no
    token is bound; when it succeeds the token is set as the credentials
    of the OAuth2 client and the method resolves with the client id,
    client secret, redirect URI and the token. *)
Theorem authorizeWithCode_single_attempt :
  forall (rem : remote) (data : driver_data) (o : oauth_config) (s : state),
    oAuth data = Some o ->
    let (r, s') := authorizeWithCode rem data s in
    exists a,
      getToken_trace (env s') = getToken_trace (env s) ++ [(code o, a)] /\
      refresh_trace (env s') = refresh_trace (env s) /\
      no_file_call s s' /\
      match a with
      | inl _ =>
          r = Rejected (Reason "Error retrieving access token") /\
          (forall c, oAuth2Client (this s') = Some c ->
             credentials c =
               match oAuth2Client (this s) with
               | Some c0 => credentials c0
               | None => Some empty_credentials
               end)
      | inr tok =>
          r = Resolved {| client_id := client_id o;
                          client_secret := client_secret o;
                          redirect_uri := redirect_uri o;
                          token := Some tok;
                          code := None |} /\
          exists c, oAuth2Client (this s') = Some c /\
                    credentials c = Some tok
      end.
Proof.
  intros rem data o s Ho.
  pose proof (authorizeWithCode_spec rem data o s Ho) as S.
  destruct (authorizeWithCode rem data s) as [r s'].
  cbn zeta in S. destruct S as (a & Hg & Hr & Hf & _ & _ & Ha).
  exists a. split; [exact Hg|]. split; [exact Hr|]. split; [exact Hf|].
  destruct a as [e|tok]; destruct Ha as [Hres Hc].
  - split; [exact Hres|]. intros c Hc'. rewrite Hc in Hc'.
    injection Hc' as <-. destruct (oAuth2Client (this s)); reflexivity.
  - split; [exact Hres|]. eexists. split; [exact Hc|reflexivity].
Qed.

Lemma authorizeWithCode_single_attempt_witness :
  let (r, s') :=
    authorizeWithCode Examples.failing Examples.data0 Examples.s_blank in
  exists a,
    getToken_trace (env s') =
      getToken_trace (env Examples.s_blank) ++ [(code Examples.oauth0, a)] /\
    refresh_trace (env s') = refresh_trace (env Examples.s_blank) /\
    no_file_call Examples.s_blank s' /\
    match a with
    | inl _ =>
        r = Rejected (Reason "Error retrieving access token") /\
        (forall c, oAuth2Client (this s') = Some c ->
           credentials c =
             match oAuth2Client (this Examples.s_blank) with
             | Some c0 => credentials c0
             | None => Some empty_credentials
             end)
    | inr tok =>
        r = Resolved {| client_id := client_id Examples.oauth0;
                        client_secret := client_secret Examples.oauth0;
                        redirect_uri := redirect_uri Examples.oauth0;
                        token := Some tok;
                        code := None |} /\
        exists c, oAuth2Client (this s') = Some c /\
                  credentials c = Some tok
    end.
Proof.
  apply (authorizeWithCode_single_attempt Examples.failing Examples.data0
           Examples.oauth0 Examples.s_blank).
  reflexivity.
Defined.

(** * The instance across calls *)

Lemma pRetry_attempt_this {A} (input : M (outcome A)) :
  (forall s, this (snd (input s)) = this s) ->
  forall r es a s,
    this (snd (pRetry_attempt input onFailedAttempt es a r s)) = this s.
Proof.
  intros Hin. induction r as [|r IH]; intros es a s;
    cbn [pRetry_attempt]; unfold bind; specialize (Hin s);
    destruct (input s) as [[x|[|e|m|]] s1]; cbn in Hin |- *;
    try exact Hin.
  rewrite IH. exact Hin.
Qed.

(** No method touches the drive client or the stored configuration, so
    an instance that is [well_formed] stays so. *)
Lemma methods_keep_drive (rem : remote) (s : state) :
  (forall data,
     let s' := snd (authorizeWithCode rem data s) in
     driveClient (this s') = driveClient (this s) /\
     _data (this s') = _data (this s)) /\
  (forall data,
     let s' := snd (refreshToken rem data s) in
     driveClient (this s') = driveClient (this s) /\
     _data (this s') = _data (this s)) /\
  (forall q fields full orderBy fuel,
     this (snd (getFileList rem q fields full orderBy fuel s)) = this s) /\
  (forall fileId, this (snd (downloadFile rem fileId s)) = this s).
Proof.
  split; [|split; [|split]].
  - intros data. cbn zeta.
    destruct (authorizeWithCode rem data s) as [r s'] eqn:E. cbn [snd].
    unfold authorizeWithCode in E. unfold bind at 1 in E.
    cbn beta iota delta [get_this] in E.
    destruct (oAuth2Client (this s)), (oAuth data); unfold bind in E;
      cbn in E; try (injection E as <- <-; split; reflexivity);
      match type of E with
      | context [getToken rem ?w ?c] => destruct (getToken rem w c)
      end; cbn in E; injection E as <- <-; split; reflexivity.
  - intros data. cbn zeta.
    destruct (refreshToken rem data s) as [r s'] eqn:E. cbn [snd].
    unfold refreshToken in E. unfold bind at 1 in E.
    cbn beta iota delta [get_this] in E.
    destruct (oAuth2Client (this s)) as [c|].
    + destruct (credentials c) as [cr|];
        [|injection E as <- <-; split; reflexivity].
      unfold bind in E; cbn in E.
      destruct (js_lt _ _); [injection E as <- <-; split; reflexivity|].
      match type of E with
      | context [refreshAccessToken rem ?w ?c] =>
          destruct (refreshAccessToken rem w c)
      end; cbn in E; injection E as <- <-; split; reflexivity.
    + destruct (oAuth _) as [o|];
        [|injection E as <- <-; split; reflexivity].
      unfold bind at 1 in E.
      cbn [set_oAuth2Client setCredentials credentials] in E.
      destruct (token o) as [cr|];
        [|injection E as <- <-; split; reflexivity].
      unfold bind in E; cbn in E.
      destruct (js_lt _ _); [injection E as <- <-; split; reflexivity|].
      match type of E with
      | context [refreshAccessToken rem ?w ?c] =>
          destruct (refreshAccessToken rem w c)
      end; cbn in E; injection E as <- <-; split; reflexivity.
  - intros q fields full orderBy fuel.
    pose proof (getFileList_spec rem q fields full orderBy fuel s) as H.
    destruct (getFileList rem q fields full orderBy fuel s) as [r s'].
    destruct H as (calls & (Ht & _) & _). exact Ht.
  - intros fileId. unfold downloadFile. unfold bind at 1.
    rewrite checkAuthorizationStatus_spec.
    destruct (authorized (this s)); [|reflexivity]. cbn [negb].
    unfold bind at 1. cbn [logger with_env]. unfold bind at 1. unfold pRetry.
    match goal with
    | |- context [pRetry_attempt ?i ?h [] 1 3 ?s0] =>
        pose proof (pRetry_attempt_this i) as H;
        specialize (H (fun s1 => ltac:(
          unfold bind, get_this; destruct (drive (_data (this s1)));
          reflexivity)) 3 [] 1 s0);
        destruct (pRetry_attempt i h [] 1 3 s0) as [[b|e] s']
    end; exact H.
Qed.

(** * Further properties of the token methods *)

(** [refreshToken] when no token can be read: the instance has no client
    and no [oAuth] configuration is at hand, or the client at hand holds
    no credentials object.  The method is rejected with a [TypeError]
    and no call reaches the SDK. *)
Theorem refreshToken_without_token_rejects :
  forall (rem : remote) (data : option driver_data) (s : state),
    (forall c, refresh_client s data c -> credentials c = None) ->
    let (r, s') := refreshToken rem data s in
    r = Rejected TypeError /\
    no_network_call s s' /\
    log (env s') = log (env s).
Proof.
  intros rem data s H.
  destruct (refreshToken rem data s) as [r s'] eqn:E.
  unfold refreshToken in E. unfold bind at 1 in E.
  cbn beta iota delta [get_this] in E.
  destruct (oAuth2Client (this s)) as [c|] eqn:C.
  - rewrite (H c (or_introl C)) in E. injection E as <- <-.
    split; [reflexivity|]. split; [same_frame|reflexivity].
  - destruct (oAuth _) as [o|] eqn:O.
    + unfold bind at 1 in E.
      cbn [set_oAuth2Client setCredentials credentials] in E.
      assert (T : token o = None).
      { apply (H (setCredentials
                    (new_OAuth2 (client_id o) (client_secret o)
                       (redirect_uri o)) (token o))).
        right. split; [exact C|]. exists o. split; [exact O|reflexivity]. }
      rewrite T in E. injection E as <- <-.
      split; [reflexivity|]. split; [same_frame|reflexivity].
    + injection E as <- <-.
      split; [reflexivity|]. split; [same_frame|reflexivity].
Qed.

Lemma refreshToken_without_token_rejects_witness :
  let (r, s') := refreshToken Examples.failing None Examples.s_blank in
  r = Rejected TypeError /\
  no_network_call Examples.s_blank s' /\
  log (env s') = log (env Examples.s_blank).
Proof.
  apply (refreshToken_without_token_rejects Examples.failing None
           Examples.s_blank).
  intros c [C|(_ & o & O & _)]; discriminate.
Defined.

(** [authorizeWithCode] with a configuration that has no [oAuth] entry
    is rejected with a [TypeError]; no call reaches the SDK and the
    instance is left as it was. *)
Theorem authorizeWithCode_without_oAuth_rejects :
  forall (rem : remote) (data : driver_data) (s : state),
    oAuth data = None ->
    let (r, s') := authorizeWithCode rem data s in
    r = Rejected TypeError /\ no_network_call s s' /\ this s' = this s.
Proof.
  intros rem data s O.
  destruct (authorizeWithCode rem data s) as [r s'] eqn:E.
  unfold authorizeWithCode in E. unfold bind at 1 in E.
  cbn beta iota delta [get_this] in E. rewrite O in E.
  destruct (oAuth2Client (this s)); unfold bind in E; cbn in E;
    injection E as <- <-; (split; [reflexivity|]);
    (split; [same_frame|reflexivity]).
Qed.

Lemma authorizeWithCode_without_oAuth_rejects_witness :
  let (r, s') :=
    authorizeWithCode (Examples.scripted [] 0 [])
      {| oAuth := None; drive := drive Examples.data0 |} Examples.s0 in
  r = Rejected TypeError /\ no_network_call Examples.s0 s' /\
  this s' = this Examples.s0.
Proof.
  apply (authorizeWithCode_without_oAuth_rejects (Examples.scripted [] 0 [])
           {| oAuth := None; drive := drive Examples.data0 |} Examples.s0).
  reflexivity.
Defined.

(** Once the instance has an OAuth2 client, the [data] argument of
    [refreshToken] plays no part: any two arguments give the same
    result and the same final state. *)
Theorem refreshToken_ignores_data_with_client :
  forall (rem : remote) (data1 data2 : option driver_data) (s : state)
         (c : OAuth2),
    oAuth2Client (this s) = Some c ->
    refreshToken rem data1 s = refreshToken rem data2 s.
Proof.
  intros rem data1 data2 s c C. unfold refreshToken.
  unfold bind at 1. cbn beta iota delta [get_this]. rewrite C.
  symmetry. unfold bind at 1. cbn beta iota delta [get_this]. rewrite C.
  reflexivity.
Qed.

Lemma refreshToken_ignores_data_with_client_witness :
  refreshToken (Examples.scripted [] 0 []) None Examples.s0 =
  refreshToken (Examples.scripted [] 0 [])
    (Some {| oAuth := None; drive := None |}) Examples.s0.
Proof.
  apply (refreshToken_ignores_data_with_client (Examples.scripted [] 0 [])
           None (Some {| oAuth := None; drive := None |}) Examples.s0
           (setCredentials
              (new_OAuth2 (client_id Examples.oauth0)
                 (client_secret Examples.oauth0)
                 (redirect_uri Examples.oauth0))
              (Some Examples.stored_token))).
  reflexivity.
Defined.

(** [authorizeWithCode] builds an OAuth2 client from its argument only
    when the instance has none.  A client the instance already has is
    kept, with its own client id, secret and redirect URI, and receives
    the token; the resolved configuration still repeats the id, secret
    and redirect URI of the argument. *)
Theorem authorizeWithCode_reuses_client :
  forall (rem : remote) (data : driver_data) (o r : oauth_config)
         (s : state) (c : OAuth2),
    oAuth data = Some o ->
    oAuth2Client (this s) = Some c ->
    fst (authorizeWithCode rem data s) = Resolved r ->
    exists tok,
      token r = Some tok /\
      client_id r = client_id o /\
      client_secret r = client_secret o /\
      redirect_uri r = redirect_uri o /\
      oAuth2Client (this (snd (authorizeWithCode rem data s))) =
        Some {| _clientId := _clientId c;
                _clientSecret := _clientSecret c;
                redirectUri := redirectUri c;
                credentials := Some tok |}.
Proof.
  intros rem data o r s c O C R.
  pose proof (authorizeWithCode_spec rem data o s O) as S.
  destruct (authorizeWithCode rem data s) as [r' s']. cbn [fst snd] in *.
  rewrite C in S. destruct S as (a & _ & _ & _ & _ & _ & Ha). subst r'.
  destruct a as [e|tok]; destruct Ha as [Hr Hc]; [discriminate|].
  injection Hr as ->. exists tok. cbn. rewrite Hc.
  repeat split; reflexivity.
Qed.

Lemma authorizeWithCode_reuses_client_witness :
  exists tok,
    token {| client_id := "other-id"; client_secret := "other-secret";
             redirect_uri := "http://localhost";
             token := Some Examples.fresh_token; code := None |} = Some tok /\
    "other-id" = "other-id" /\ "other-secret" = "other-secret" /\
    "http://localhost" = "http://localhost" /\
    oAuth2Client
      (this (snd (authorizeWithCode (Examples.scripted [] 0 [])
                    {| oAuth := Some {| client_id := "other-id";
                                        client_secret := "other-secret";
                                        redirect_uri := "http://localhost";
                                        token := None;
                                        code := Some "4/0AX4" |};
                       drive := None |} Examples.s0))) =
      Some {| _clientId := client_id Examples.oauth0;
              _clientSecret := client_secret Examples.oauth0;
              redirectUri := redirect_uri Examples.oauth0;
              credentials := Some tok |}.
Proof.
  apply (authorizeWithCode_reuses_client (Examples.scripted [] 0 [])
           {| oAuth := Some {| client_id := "other-id";
                               client_secret := "other-secret";
                               redirect_uri := "http://localhost";
                               token := None;
                               code := Some "4/0AX4" |};
              drive := None |}
           {| client_id := "other-id"; client_secret := "other-secret";
              redirect_uri := "http://localhost";
              token := None; code := Some "4/0AX4" |}
           {| client_id := "other-id"; client_secret := "other-secret";
              redirect_uri := "http://localhost";
              token := Some Examples.fresh_token; code := None |}
           Examples.s0
           (setCredentials
              (new_OAuth2 (client_id Examples.oauth0)
                 (client_secret Examples.oauth0)
                 (redirect_uri Examples.oauth0))
              (Some Examples.stored_token))).
  - reflexivity.
  - reflexivity.
  - reflexivity.
Defined.

Lemma authorizeWithCode_now rem data s :
  now (env (snd (authorizeWithCode rem data s))) = now (env s).
Proof.
  destruct (authorizeWithCode rem data s) as [r s'] eqn:E. cbn [snd].
  unfold authorizeWithCode in E. unfold bind at 1 in E.
  cbn beta iota delta [get_this] in E.
  destruct (oAuth2Client (this s)), (oAuth data); unfold bind in E;
    cbn in E; try (injection E as <- <-; reflexivity);
    match type of E with
    | context [getToken rem ?w ?c] => destruct (getToken rem w c)
    end; cbn in E; injection E as <- <-; reflexivity.
Qed.

(** [authorizeWithCode] followed by [refreshToken]: the token the
    exchange has just bound is the one whose expiry is checked, so when
    it expires later than [now + 600000] the refresh returns
    [undefined] and issues no call. *)
Theorem authorizeWithCode_then_refreshToken :
  forall (rem : remote) (data : driver_data) (data' : option driver_data)
         (s : state) (r : oauth_config) (tok : Credentials) (e : Z),
    fst (authorizeWithCode rem data s) = Resolved r ->
    token r = Some tok ->
    expiry_date tok = Some e ->
    (now (env s) + 600000 < e)%Z ->
    let s1 := snd (authorizeWithCode rem data s) in
    let (r2, s2) := refreshToken rem data' s1 in
    r2 = Resolved undefined /\ no_network_call s1 s2.
Proof.
  intros rem data data' s r tok e R T X Hlt s1.
  assert (C : exists c, oAuth2Client (this s1) = Some c /\
                        credentials c = Some tok).
  { subst s1. destruct (oAuth data) as [o|] eqn:O.
    - pose proof (authorizeWithCode_spec rem data o s O) as S.
      destruct (authorizeWithCode rem data s) as [r' s']. cbn [fst snd] in *.
      destruct S as (a & _ & _ & _ & _ & _ & Ha). subst r'.
      destruct a as [e0|tok0]; destruct Ha as [Hr Hc]; [discriminate|].
      injection Hr as ->. cbn in T. injection T as ->.
      eexists. split; [exact Hc|reflexivity].
    - exfalso. revert R. unfold authorizeWithCode. unfold bind at 1.
      cbn [get_this]. rewrite O.
      destruct (oAuth2Client (this s)); cbn; discriminate. }
  destruct C as (c & C & Cr).
  assert (N : now (env s1) = now (env s)) by apply authorizeWithCode_now.
  destruct (refreshToken rem data' s1) as [r2 s2] eqn:E.
  unfold refreshToken in E. unfold bind at 1 in E.
  cbn beta iota delta [get_this] in E. rewrite C, Cr in E.
  unfold bind in E. cbn [logger with_env get_now env now] in E.
  rewrite N, X in E. cbn [js_lt] in E.
  apply Z.ltb_lt in Hlt. rewrite Hlt in E. injection E as <- <-.
  split; [reflexivity|same_frame].
Qed.

Lemma authorizeWithCode_then_refreshToken_witness :
  let s1 := snd (authorizeWithCode (Examples.scripted [] 0 [])
                   Examples.data0 Examples.s_drive_only) in
  let (r2, s2) := refreshToken (Examples.scripted [] 0 []) None s1 in
  r2 = Resolved undefined /\ no_network_call s1 s2.
Proof.
  apply (authorizeWithCode_then_refreshToken (Examples.scripted [] 0 [])
           Examples.data0 None Examples.s_drive_only
           {| client_id := client_id Examples.oauth0;
              client_secret := client_secret Examples.oauth0;
              redirect_uri := redirect_uri Examples.oauth0;
              token := Some Examples.fresh_token;
              code := None |}
           Examples.fresh_token 1600007200000%Z).
  - reflexivity.
  - reflexivity.
  - reflexivity.
  - cbn. lia.
Defined.

(** No method changes whether the instance is well formed: an instance
    for which the drive client and the [drive] configuration go
    together keeps that through every method, whatever the SDK
    answers. *)
Theorem methods_keep_well_formed :
  forall (rem : remote) (s : state),
    well_formed (this s) ->
    (forall data, well_formed (this (snd (authorizeWithCode rem data s)))) /\
    (forall data, well_formed (this (snd (refreshToken rem data s)))) /\
    (forall q fields full orderBy fuel,
       well_formed (this (snd (getFileList rem q fields full orderBy fuel s)))) /\
    (forall fileId, well_formed (this (snd (downloadFile rem fileId s)))).
Proof.
  intros rem s W.
  destruct (methods_keep_drive rem s) as (Ha & Hr & Hl & Hd).
  split; [|split; [|split]]; intros.
  - destruct (Ha data) as [E1 E2]. cbn zeta in E1, E2.
    unfold well_formed. rewrite E1, E2. exact W.
  - destruct (Hr data) as [E1 E2]. cbn zeta in E1, E2.
    unfold well_formed. rewrite E1, E2. exact W.
  - rewrite Hl. exact W.
  - rewrite Hd. exact W.
Qed.

Lemma methods_keep_well_formed_witness :
  well_formed
    (this (snd (authorizeWithCode (Examples.scripted [] 0 []) Examples.data0
                  Examples.s_drive_only))).
Proof.
  apply (methods_keep_well_formed (Examples.scripted [] 0 [])
           Examples.s_drive_only).
  apply constructor_well_formed.
Defined.

(** * Further properties of the listing *)

Lemma pRetry_first_page rem p P h r s :
  files_list rem (env s) p = inr P ->
  pRetry (driveClient_files_list rem p) h r s =
    (Resolved P, snd (driveClient_files_list rem p s)).
Proof.
  intros E. unfold pRetry.
  destruct r; cbn [pRetry_attempt]; unfold bind, driveClient_files_list;
    rewrite E; reflexivity.
Qed.

Lemma getFileList_loop_endless rem q fields orderBy drv :
  endless rem ->
  forall fuel data tok counter s,
    drive (_data (this s)) = Some drv ->
    let (r, s') :=
      getFileList_loop rem fuel q fields true orderBy data tok counter s in
    r = None /\
    List.length (list_trace (env s')) = List.length (list_trace (env s)) + fuel.
Proof.
  intros H. induction fuel as [|fuel IH]; intros data tok counter s D.
  - cbn. split; [reflexivity|lia].
  - cbn [getFileList_loop]. unfold bind at 1. cbn [logger with_env].
    unfold bind at 1. cbn [get_this this env _data]. rewrite D.
    unfold bind at 1.
    match goal with
    | |- context [pRetry (driveClient_files_list _ ?p) _ 3 ?s0] =>
        destruct (H (env s0) p) as (P & E & T);
        rewrite (pRetry_first_page rem p P onFailedAttempt 3 s0 E)
    end.
    rewrite T. cbn [andb]. rewrite T.
    match goal with
    | |- context [getFileList_loop _ fuel _ _ _ _ ?d ?t ?c ?s1] =>
        specialize (IH d t c s1 D);
        destruct (getFileList_loop rem fuel q fields true orderBy d t c s1)
          as [r s']
    end.
    destruct IH as [-> IH]. split; [reflexivity|].
    rewrite IH. cbn. rewrite length_app. cbn. lia.
Qed.

(** A listing with [full = true] has no bound on the number of pages:
    against an SDK whose every page carries a next-page token the loop
    never ends (no number of turns gives a result), and every turn
    issues one more [files.list] call. *)
Theorem getFileList_full_unbounded :
  forall (rem : remote) (q : string) (fields orderBy : option string)
         (s : state),
    endless rem ->
    fst (checkAuthorizationStatus s) = true ->
    well_formed (this s) ->
    forall fuel,
      let (r, s') := getFileList rem q fields (Some true) orderBy fuel s in
      r = None /\
      List.length (list_trace (env s')) =
        List.length (list_trace (env s)) + fuel.
Proof.
  intros rem q fields orderBy s H A W fuel.
  rewrite checkAuthorizationStatus_spec in A; cbn [fst] in A.
  destruct (authorized_drive _ A W) as [drv D].
  rewrite (getFileList_authorized _ _ _ _ _ _ _ A).
  match goal with
  | |- context [getFileList_loop _ _ _ ?f _ _ ?d ?t ?c ?s0] =>
      exact (getFileList_loop_endless rem q f orderBy drv H fuel d t c s0 D)
  end.
Qed.

Lemma looping_endless : endless Examples.looping.
Proof.
  intros w p. eexists. split; reflexivity.
Qed.

Lemma getFileList_full_unbounded_witness :
  let (r, s') :=
    getFileList Examples.looping "" None (Some true) None 25 Examples.s0 in
  r = None /\
  List.length (list_trace (env s')) =
    List.length (list_trace (env Examples.s0)) + 25.
Proof.
  apply (getFileList_full_unbounded Examples.looping "" None None Examples.s0
           looping_endless).
  - reflexivity.
  - apply constructor_well_formed.
Defined.








Lemma getFileList_loop_page_trace rem (q fields : string) (full : bool)
    (orderBy : option string) (drv : drive_config) (errs : list remote_error)
    (P : list_response) (rest : list (remote_error + list_response))
    (fuel : nat) (data : list file) (tok : option string) (counter : nat)
    (s : state) :
  drive (_data (this s)) = Some drv ->
  List.length errs <= 3 ->
  serves rem (List.length (list_trace (env s)))
    (map inl errs ++ inr P :: rest) ->
  let p := list_params drv q fields orderBy tok in
  exists s1,
    this s1 = this s /\
    list_trace (env s1) =
      list_trace (env s) ++ failed_lists p errs ++ [(p, inr P)] /\
    serves rem (List.length (list_trace (env s1))) rest /\
    getFileList_loop rem (S fuel) q fields full orderBy data tok counter s =
      let tok' := if truthy (nextPageToken P) && full
                  then nextPageToken P else None in
      if truthy tok'
      then getFileList_loop rem fuel q fields full orderBy (data ++ files P)
             tok' (S counter) s1
      else (Some (Resolved (defined (data ++ files P))),
            snd (logger (info_GotFiles (List.length (data ++ files P))) s1)).
Proof.
  intros D Hle Hs p.
  cbn [getFileList_loop]. unfold bind at 1. cbn [logger with_env].
  unfold bind at 1. cbn [get_this this env _data]. rewrite D.
  unfold bind at 1. unfold pRetry. fold p.
  match goal with
  | |- context [pRetry_attempt ?i _ [] 1 3 ?s0] =>
      destruct (pRetry_attempt_served rem p P rest errs 3 [] 1 s0 Hle Hs)
        as (s1 & R & Hf & Ht & Hs1)
  end.
  rewrite R. exists s1. split; [revert Hf; same_frame|].
  split; [exact Ht|]. split; [exact Hs1|]. cbn zeta.
  destruct (truthy (if truthy (nextPageToken P) && full
                    then nextPageToken P else None)); reflexivity.
Qed.

Lemma getFileList_loop_rounds_trace rem (q fields : string)
    (orderBy : option string) (drv : drive_config) (final : round) :
  retriable final ->
  truthy (nextPageToken (snd final)) = false ->
  forall init fuel data tok counter s,
    drive (_data (this s)) = Some drv ->
    Forall retriable init ->
    Forall has_next init ->
    serves rem (List.length (list_trace (env s)))
      (answers_of (init ++ [final])) ->
    List.length init < fuel ->
    exists s',
      getFileList_loop rem fuel q fields true orderBy data tok counter s =
        (Some (Resolved (defined (data ++ files_of (init ++ [final])))), s') /\
      list_trace (env s') =
        list_trace (env s) ++ calls_of drv q fields orderBy tok (init ++ [final]).
Proof.
  intros Hrf Hlf.
  induction init as [|[errs P] init IH];
    intros fuel data tok counter s D Hr Hn Hs Hfuel.
  - destruct final as [errs P]. unfold retriable in Hrf.
    cbn [fst snd app answers_of flat_map] in *. rewrite app_nil_r in Hs.
    destruct fuel as [|fuel]; [lia|].
    destruct (getFileList_loop_page_trace rem q fields true orderBy drv errs P
                [] fuel data tok counter s D Hrf Hs)
      as (s1 & _ & Ht & _ & E).
    rewrite E. cbn zeta. rewrite Hlf. cbn [andb truthy].
    eexists. split.
    + unfold files_of. cbn. rewrite app_nil_r. reflexivity.
    + cbn [logger with_env snd env list_trace calls_of app fst].
      rewrite Ht. reflexivity.
  - inversion Hr as [|? ? Hr1 Hr2]; subst. inversion Hn as [|? ? Hn1 Hn2]; subst.
    unfold retriable in Hr1. unfold has_next in Hn1. cbn [fst snd] in Hr1, Hn1.
    cbn [app answers_of flat_map fst snd] in Hs. rewrite <- !app_assoc in Hs.
    cbn [app] in Hs.
    destruct fuel as [|fuel]; [cbn in Hfuel; lia|].
    destruct (getFileList_loop_page_trace rem q fields true orderBy drv errs P
                (answers_of (init ++ [final])) fuel data tok counter s D Hr1 Hs)
      as (s1 & Hthis & Ht & Hs1 & E).
    rewrite E. cbn zeta. rewrite Hn1. cbn [andb]. rewrite Hn1.
    assert (D1 : drive (_data (this s1)) = Some drv)
      by (rewrite Hthis; exact D).
    destruct (IH fuel (data ++ files P) (nextPageToken P) (S counter) s1
                D1 Hr2 Hn2 Hs1) as (s' & E' & Ht').
    { cbn in Hfuel. lia. }
    exists s'. split.
    + rewrite E'. unfold files_of. cbn [app map List.concat snd].
      rewrite <- app_assoc. reflexivity.
    + rewrite Ht', Ht. cbn [app calls_of fst snd].
      rewrite <- !app_assoc. reflexivity.
Qed.

(** The calls of a full listing against a scripted SDK, with their
    tokens: the first page is asked with no page token, each later page
    with the [nextPageToken] of the page before; a page fetch repeats
    its one request until it is answered, and no call is issued after
    the page that carries no token. *)
Theorem getFileList_full_token_chain :
  forall (rem : remote) (q : string) (fields orderBy : option string)
         (init : list round) (final : round) (drv : drive_config)
         (fuel : nat) (s : state),
    fst (checkAuthorizationStatus s) = true ->
    drive (_data (this s)) = Some drv ->
    Forall retriable (init ++ [final]) ->
    Forall has_next init ->
    truthy (nextPageToken (snd final)) = false ->
    serves rem (List.length (list_trace (env s)))
      (answers_of (init ++ [final])) ->
    List.length init < fuel ->
    let (r, s') := getFileList rem q fields (Some true) orderBy fuel s in
    r = Some (Resolved (defined (files_of (init ++ [final])))) /\
    list_trace (env s') =
      list_trace (env s)
      ++ calls_of drv q
           (or_default fields "id, name, modifiedTime, parents, size")
           orderBy None (init ++ [final]).
Proof.
  intros rem q fields orderBy init final drv fuel s A D Hr Hn Hl Hs Hfuel.
  rewrite checkAuthorizationStatus_spec in A; cbn [fst] in A.
  rewrite (getFileList_authorized _ _ _ _ _ _ _ A).
  apply Forall_app in Hr. destruct Hr as [Hr Hrf].
  inversion Hrf as [|? ? Hrf1 _]; subst.
  match goal with
  | |- context [getFileList_loop _ _ _ ?f _ _ ?d ?t ?c ?s0] =>
      destruct (getFileList_loop_rounds_trace rem q f orderBy drv final
                  Hrf1 Hl init fuel d t c s0 D Hr Hn Hs Hfuel)
        as (s' & E & Ht)
  end.
  rewrite E. split; [reflexivity|exact Ht].
Qed.

Lemma getFileList_full_token_chain_witness :
  let (r, s') :=
    getFileList
      (Examples.scripted
         [inl Examples.unavailable; inr Examples.page1; inr Examples.page2]
         0 [])
      "" None (Some true) None 2 Examples.s0 in
  r = Some (Resolved (defined
        (files_of ([([Examples.unavailable], Examples.page1)]
                   ++ [([], Examples.page2)])))) /\
  list_trace (env s') =
    list_trace (env Examples.s0)
    ++ calls_of {| driveId := "0AJ" |} ""
         (or_default None "id, name, modifiedTime, parents, size") None None
         ([([Examples.unavailable], Examples.page1)] ++ [([], Examples.page2)]).
Proof.
  apply (getFileList_full_token_chain
           (Examples.scripted
              [inl Examples.unavailable; inr Examples.page1;
               inr Examples.page2] 0 [])
           "" None None [([Examples.unavailable], Examples.page1)]
           ([], Examples.page2) {| driveId := "0AJ" |} 2 Examples.s0).
  - reflexivity.
  - reflexivity.
  - repeat constructor.
  - repeat constructor.
  - reflexivity.
  - apply scripted_serves.
  - cbn. lia.
Defined.

Example getFileList_second_request_token :
  map (fun c => p_pageToken (fst c))
    (list_trace (env (snd (getFileList
       (Examples.scripted [inr Examples.page1; inr Examples.page2] 0 [])
       "" None (Some true) None 2 Examples.s0))))
  = [None; Some "~!!~AI9"].
Proof. reflexivity. Qed.

(** * Further properties of the download *)

Lemma serves_get_head rem n a answers w p :
  serves_get rem n (a :: answers) ->
  List.length (get_trace w) = n ->
  files_get rem w p = a.
Proof.
  intros H L. apply (H w p 0 a); [reflexivity|lia].
Qed.

Lemma serves_get_tail rem n a answers :
  serves_get rem n (a :: answers) -> serves_get rem (S n) answers.
Proof.
  intros H w p i b Hb L. apply (H w p (S i) b); [exact Hb|lia].
Qed.

Lemma pRetry_attempt_get_served rem (p : get_params) (b : list Byte.byte)
    (rest : list (remote_error + list Byte.byte)) :
  forall errs r es a s,
    List.length errs <= r ->
    serves_get rem (List.length (get_trace (env s)))
      (map inl errs ++ inr b :: rest) ->
    exists s',
      pRetry_attempt (driveClient_files_get rem p) onFailedAttempt es a r s
        = (Resolved b, s') /\
      same_but_get s s' /\
      get_trace (env s') =
        get_trace (env s) ++ failed_gets p errs ++ [(p, inr b)] /\
      log (env s') = log (env s) ++ attempt_events a r (List.length errs).
Proof.
  induction errs as [|e errs IH]; intros r es a s Hle Hs.
  - cbn [map app] in Hs.
    assert (E : files_get rem (env s) p = inr b)
      by (eapply serves_get_head; [exact Hs|reflexivity]).
    eexists. split.
    { destruct r; cbn [pRetry_attempt]; unfold bind, driveClient_files_get;
        rewrite E; cbn; reflexivity. }
    split; [same_frame|]. cbn. split; [reflexivity|].
    rewrite app_nil_r. reflexivity.
  - cbn [map app] in Hs.
    assert (E : files_get rem (env s) p = inl e)
      by (eapply serves_get_head; [exact Hs|reflexivity]).
    destruct r as [|r]; [cbn in Hle; lia|].
    cbn [pRetry_attempt]. unfold bind at 1.
    unfold driveClient_files_get at 1. rewrite E. cbn [of_remote].
    unfold bind at 1. cbn [onFailedAttempt logger with_env].
    match goal with
    | |- context [pRetry_attempt _ _ _ (S a) r ?s1] =>
        destruct (IH r (es ++ [e]) (S a) s1) as (s' & R & Hf & Ht & Hl)
    end.
    { cbn in Hle. lia. }
    { cbn. rewrite length_app. cbn. rewrite Nat.add_1_r.
      eapply serves_get_tail. exact Hs. }
    exists s'. split; [exact R|].
    split; [revert Hf; same_frame|].
    split; [rewrite Ht; cbn; rewrite <- app_assoc; reflexivity|].
    rewrite Hl. cbn. rewrite <- app_assoc. reflexivity.
Qed.

(** A download whose first [k] calls fail ([k] at most 3) and whose next
    call brings the content resolves with exactly these bytes after
    [k + 1] calls of the one request; the log shows the download and
    one failure event per failed call, numbered from 1 with the retries
    left counted down from 3. *)
Theorem downloadFile_retries_then_content :
  forall (rem : remote) (fileId : string) (errs : list remote_error)
         (content : list Byte.byte) (drv : drive_config) (s : state),
    fst (checkAuthorizationStatus s) = true ->
    drive (_data (this s)) = Some drv ->
    List.length errs <= 3 ->
    serves_get rem (List.length (get_trace (env s)))
      (map inl errs ++ [inr content]) ->
    let p := download_params drv fileId in
    let (r, s') := downloadFile rem fileId s in
    r = Resolved (defined content) /\
    get_trace (env s') =
      get_trace (env s) ++ failed_gets p errs ++ [(p, inr content)] /\
    log (env s') =
      log (env s)
      ++ info_DownloadingFile fileId :: attempt_events 1 3 (List.length errs).
Proof.
  intros rem fileId errs content drv s A D Hle Hs p.
  rewrite checkAuthorizationStatus_spec in A; cbn [fst] in A.
  rewrite (downloadFile_authorized rem fileId s drv A D). unfold pRetry.
  match goal with
  | |- context [pRetry_attempt _ _ [] 1 3 ?s0] =>
      destruct (pRetry_attempt_get_served rem p content [] errs 3 [] 1 s0
                  Hle Hs)
        as (s' & R & _ & Ht & Hl)
  end.
  fold p. rewrite R. split; [reflexivity|]. split; [exact Ht|].
  rewrite Hl. cbn. rewrite <- app_assoc. reflexivity.
Qed.

Lemma scripted_serves_get answers k content :
  serves_get (Examples.scripted answers k content) 0
    (map inl (repeat Examples.unavailable k) ++ [inr content]).
Proof.
  intros w p i a Hi Hl. cbn in Hl. cbn [Examples.scripted files_get].
  rewrite Hl. destruct (Nat.leb k i) eqn:L.
  - apply Nat.leb_le in L.
    assert (i = k).
    { assert (i < List.length
                    (map (@inl remote_error (list Byte.byte))
                       (repeat Examples.unavailable k) ++ [inr content]))
        by (apply nth_error_Some; congruence).
      rewrite length_app, length_map, repeat_length in H. cbn in H. lia. }
    rewrite H in Hi. rewrite nth_error_app2 in Hi
      by (rewrite length_map, repeat_length; lia).
    rewrite length_map, repeat_length, Nat.sub_diag in Hi. cbn in Hi.
    congruence.
  - apply Nat.leb_gt in L.
    rewrite nth_error_app1 in Hi by (rewrite length_map, repeat_length; lia).
    rewrite nth_error_map in Hi.
    rewrite (nth_error_repeat Examples.unavailable L) in Hi. cbn in Hi.
    congruence.
Qed.

Lemma downloadFile_retries_then_content_witness :
  let p := download_params {| driveId := "0AJ" |} "file123" in
  let (r, s') :=
    downloadFile (Examples.scripted [] 2 [Byte.x50; Byte.x4b]) "file123"
      Examples.s0 in
  r = Resolved (defined [Byte.x50; Byte.x4b]) /\
  get_trace (env s') =
    get_trace (env Examples.s0)
    ++ failed_gets p (repeat Examples.unavailable 2)
    ++ [(p, inr [Byte.x50; Byte.x4b])] /\
  log (env s') =
    log (env Examples.s0)
    ++ info_DownloadingFile "file123"
       :: attempt_events 1 3 (List.length (repeat Examples.unavailable 2)).
Proof.
  apply (downloadFile_retries_then_content
           (Examples.scripted [] 2 [Byte.x50; Byte.x4b]) "file123"
           (repeat Examples.unavailable 2) [Byte.x50; Byte.x4b]
           {| driveId := "0AJ" |} Examples.s0).
  - reflexivity.
  - reflexivity.
  - cbn. lia.
  - apply scripted_serves_get.
Defined.




(** [getFileList] only lists, whatever the SDK answers and whether or
    not the instance is authorized: it issues no [files.get],
    [getToken] or [refreshAccessToken] call and assigns no field of the
    instance. *)
Theorem getFileList_only_lists :
  forall (rem : remote) (q : string) (fields : option string)
         (full : option bool) (orderBy : option string)
         (fuel : nat) (s : state),
    same_but_list s (snd (getFileList rem q fields full orderBy fuel s)).
Proof.
  intros rem q fields full orderBy fuel s.
  pose proof (getFileList_spec rem q fields full orderBy fuel s) as H.
  destruct (getFileList rem q fields full orderBy fuel s) as [r s'].
  destruct H as (calls & Hf & _). exact Hf.
Qed.

(** [refreshToken] on an instance without an OAuth2 client: when an
    [oAuth] configuration is at hand (in the argument, or stored when
    the argument is omitted) the instance gets a client built from its
    client id, secret and redirect URI, whatever happens next in the
    call; [checkAuthorizationStatus()] is then true exactly when the
    drive client is present. *)
Theorem refreshToken_creates_client :
  forall (rem : remote) (data : option driver_data) (o : oauth_config)
         (s : state),
    oAuth2Client (this s) = None ->
    oAuth (match data with Some x => x | None => _data (this s) end) = Some o ->
    let s' := snd (refreshToken rem data s) in
    (exists c,
       oAuth2Client (this s') = Some c /\
       _clientId c = client_id o /\
       _clientSecret c = client_secret o /\
       redirectUri c = redirect_uri o) /\
    (fst (checkAuthorizationStatus s') = true <-> driveClient (this s) <> None).
Proof.
  intros rem data o s C O s'.
  assert (H : oAuth2Client (this s') =
              Some (setCredentials
                      (new_OAuth2 (client_id o) (client_secret o)
                         (redirect_uri o)) (token o)) /\
              driveClient (this s') = driveClient (this s)).
  { subst s'. destruct (refreshToken rem data s) as [r s'] eqn:E. cbn [snd].
    unfold refreshToken in E. unfold bind at 1 in E.
    cbn beta iota delta [get_this] in E. rewrite C, O in E.
    unfold bind at 1 in E.
    cbn [set_oAuth2Client setCredentials credentials] in E.
    destruct (token o) as [cr|];
      [|injection E as <- <-; split; reflexivity].
    unfold bind in E; cbn in E.
    destruct (js_lt _ _); [injection E as <- <-; split; reflexivity|].
    match type of E with
    | context [refreshAccessToken rem ?w ?c] =>
        destruct (refreshAccessToken rem w c)
    end; cbn in E; injection E as <- <-; split; reflexivity. }
  destruct H as [Hc Hd]. split.
  - eexists. split; [exact Hc|]. repeat split; reflexivity.
  - rewrite checkAuthorizationStatus_spec. cbn [fst]. unfold authorized.
    rewrite Hc, Hd. destruct (driveClient (this s)); split;
      congruence.
Qed.

Lemma refreshToken_creates_client_witness :
  let s' := snd (refreshToken Examples.failing (Some Examples.data0)
                   Examples.s_drive_only) in
  (exists c,
     oAuth2Client (this s') = Some c /\
     _clientId c = client_id Examples.oauth0 /\
     _clientSecret c = client_secret Examples.oauth0 /\
     redirectUri c = redirect_uri Examples.oauth0) /\
  (fst (checkAuthorizationStatus s') = true
   <-> driveClient (this Examples.s_drive_only) <> None).
Proof.
  apply (refreshToken_creates_client Examples.failing (Some Examples.data0)
           Examples.oauth0 Examples.s_drive_only).
  - reflexivity.
  - reflexivity.
Defined.
